(** * butility: the hand-assembled archive writer [File.zip] and the
      [JSZip]-based reader [File.unzip] of [src/butility.js]

    The development embeds the two static methods of class [File]
    (lines 3285-3517 of the bundle) together with the pieces of the
    JavaScript platform they touch: UTF-16 strings, [TextEncoder],
    [Uint8Array] construction and [set], the int32 bit operators, property
    reads on objects, resolution of free identifiers, and the settling of
    a promise that hands out a shared array. *)

From stdpp Require Import gmap strings list pretty.
From Stdlib Require Import ZArith Lia.

Local Open Scope Z_scope.

(** ** JavaScript values and exceptions *)

Module Js.

(** A JavaScript string is a sequence of UTF-16 code units; [s.length] is the
    length of that sequence.  A [Uint8Array] is a sequence of bytes. *)
Abbreviation jsstring := (list Z).
Abbreviation Uint8Array := (list Z).

(** The values [File.zip] stores in objects and reads back. *)
Inductive jsval :=
| JUndefined
| JNum (n : Z)
| JStr (s : jsstring).

Coercion JNum : Z >-> jsval.

(** The exceptions the two methods can raise or pass on. *)
Inductive js_error :=
| ReferenceError (ident : string)   (* a free identifier with no binding *)
| RangeError                        (* TypedArray.prototype.set past the end *)
| TypeError (what : string)         (* property read on null or undefined *)
| Error (message : string).         (* new Error(message) *)

(** [err.name] for the errors above. *)
Definition class_name (e : js_error) : string :=
  match e with
  | ReferenceError _ => "ReferenceError"
  | RangeError => "RangeError"
  | TypeError _ => "TypeError"
  | Error _ => "Error"
  end.

(** [err.message]; the wording of engine-raised errors is the engine's. *)
Definition message (e : js_error) : string :=
  match e with
  | ReferenceError x => x +:+ " is not defined"
  | RangeError => "offset is out of bounds"
  | TypeError w => "Cannot read properties of " +:+ w
  | Error m => m
  end.

(** Completion of a synchronous computation: a value or a thrown error. *)
Inductive exn (A : Type) :=
| Ok (a : A)
| Throw (e : js_error).
Arguments Ok {A} a.
Arguments Throw {A} e.

#[global] Instance js_error_eq_dec : EqDecision js_error.
Proof. solve_decision. Defined.

#[global] Instance exn_eq_dec {A} `{EqDecision A} : EqDecision (exn A).
Proof. solve_decision. Defined.

#[global] Instance exn_ret : MRet exn := fun A a => Ok a.
#[global] Instance exn_bind : MBind exn := fun A B k m =>
  match m with
  | Ok a => k a
  | Throw e => Throw e
  end.

(** [xs.forEach(x => out.push(f(x)))] where [f] may throw: the first throw
    aborts the loop. *)
Fixpoint forEach_push {A B} (f : A -> exn B) (xs : list A) : exn (list B) :=
  match xs with
  | [] => Ok []
  | x :: xs' =>
      y ← f x;
      ys ← forEach_push f xs';
      Ok (y :: ys)
  end.

(** *** Numeric conversions and the int32 operators *)

(** [ToNumber] on the values above, [None] standing for NaN.  Of the
    strings only the empty one and runs of decimal digits are read as
    numbers (JavaScript also accepts blanks, signs, hexadecimal and exponent
    forms); the only strings [File.zip] holds are names, and it never uses a
    name as a number. *)
Fixpoint digits (acc : Z) (s : jsstring) : option Z :=
  match s with
  | [] => Some acc
  | c :: s' => if (48 <=? c) && (c <=? 57) then digits (10 * acc + (c - 48)) s'
               else None
  end.

Definition ToNumber (v : jsval) : option Z :=
  match v with
  | JUndefined => None
  | JNum n => Some n
  | JStr s => digits 0 s
  end.

(** [ToInt32]: NaN goes to 0, a number wraps into [-2^31, 2^31). *)
Definition wrap32 (n : Z) : Z := (n + 2147483648) mod 4294967296 - 2147483648.

Definition ToInt32 (v : jsval) : Z :=
  match ToNumber v with
  | None => 0
  | Some n => wrap32 n
  end.

(** [a & b] and [a >> b]. *)
Definition band (a b : jsval) : Z := Z.land (ToInt32 a) (ToInt32 b).
Definition shr (a b : jsval) : Z := Z.shiftr (ToInt32 a) (ToInt32 b mod 32).

(** [ToUint8], applied to every element of [new Uint8Array([...])]. *)
Definition ToUint8 (v : jsval) : Z :=
  match ToNumber v with
  | None => 0
  | Some n => n mod 256
  end.

Definition Uint8Array_from (elems : list jsval) : Uint8Array := map ToUint8 elems.

(** [new Uint8Array(n)]: [n] zero bytes; a length that is not a number
    counts as 0.  The lengths passed here are sums of lengths, never
    negative. *)
Definition Uint8Array_new (n : jsval) : Uint8Array :=
  match ToNumber n with
  | None => []
  | Some n => replicate (Z.to_nat n) 0
  end.

(** [a + b] where the operands are lengths, that is numbers or
    [undefined]; [undefined] makes the sum NaN, which every later conversion
    treats like [undefined]. *)
Definition plus (a b : jsval) : jsval :=
  match a, b with
  | JNum x, JNum y => JNum (x + y)
  | _, _ => JUndefined
  end.

(** [target.set(src, offset)]: a RangeError when the source does not fit,
    otherwise the bytes of [src] overwrite [target] from [offset] on. *)
Definition typed_set (target src : Uint8Array) (offset : nat) : exn Uint8Array :=
  if (length target <? offset + length src)%nat then Throw RangeError
  else Ok (take offset target ++ src ++ drop (offset + length src) target).

(** [arr.reduce((acc, entry) => acc + entry.length, 0)]. *)
Definition reduce_length (arr : list Uint8Array) : Z :=
  foldl (fun acc entry => acc + Z.of_nat (length entry)) 0 arr.

(** *** Objects and free identifiers *)

(** [o.k]: a property the object lacks reads as [undefined]. *)
Definition get (o : gmap string jsval) (k : string) : jsval :=
  default JUndefined (o !! k).

(** [arr.length] of an array or string the code holds. *)
Definition len {A} (l : list A) : jsval := JNum (Z.of_nat (length l)).

(** [v.length] on a property value: the number of code units of a string,
    [undefined] on a number, a TypeError on [undefined]. *)
Definition js_length (v : jsval) : exn jsval :=
  match v with
  | JStr s => Ok (len s)
  | JNum _ => Ok JUndefined
  | JUndefined => Throw (TypeError "undefined (reading 'length')")
  end.

(** A free identifier is looked up in the global scope of the page that
    loaded the bundle; the bundle itself declares only its classes.
    [globals] holds the names the page binds to an integer; bindings to
    other values are not modelled. *)
Definition resolve (globals : gmap string Z) (x : string) : exn jsval :=
  match globals !! x with
  | Some n => Ok (JNum n)
  | None => Throw (ReferenceError x)
  end.

(** *** [TextEncoder.prototype.encode] *)

Definition is_high_surrogate (c : Z) : bool := (55296 <=? c) && (c <=? 56319).
Definition is_low_surrogate (c : Z) : bool := (56320 <=? c) && (c <=? 57343).

(** UTF-8 bytes of one scalar value. *)
Definition utf8_scalar (u : Z) : list Z :=
  if u <? 128 then [u]
  else if u <? 2048 then
    [Z.lor 192 (Z.shiftr u 6); Z.lor 128 (Z.land u 63)]
  else if u <? 65536 then
    [Z.lor 224 (Z.shiftr u 12);
     Z.lor 128 (Z.land (Z.shiftr u 6) 63);
     Z.lor 128 (Z.land u 63)]
  else
    [Z.lor 240 (Z.shiftr u 18);
     Z.lor 128 (Z.land (Z.shiftr u 12) 63);
     Z.lor 128 (Z.land (Z.shiftr u 6) 63);
     Z.lor 128 (Z.land u 63)].

(** The string is first read as scalar values (a surrogate pair is one
    scalar, a lone surrogate becomes U+FFFD), then each is written in UTF-8. *)
Fixpoint TextEncoder_encode (s : jsstring) : Uint8Array :=
  match s with
  | [] => []
  | c :: rest =>
      if is_high_surrogate c then
        match rest with
        | d :: rest' =>
            if is_low_surrogate d
            then utf8_scalar (65536 + (c - 55296) * 1024 + (d - 56320))
                   ++ TextEncoder_encode rest'
            else utf8_scalar 65533 ++ TextEncoder_encode rest
        | [] => utf8_scalar 65533
        end
      else if is_low_surrogate c then utf8_scalar 65533 ++ TextEncoder_encode rest
      else utf8_scalar c ++ TextEncoder_encode rest
  end.

(** An ASCII string written as code units, for examples. *)
Definition lit (s : string) : jsstring :=
  map (fun a => Z.of_nat (Ascii.nat_of_ascii a)) (String.list_ascii_of_string s).

(** [String(v)], the conversion [TextEncoder.encode] applies to its
    argument (integers in plain decimal notation). *)
Definition ToString (v : jsval) : jsstring :=
  match v with
  | JStr s => s
  | JNum n => lit (pretty n)
  | JUndefined => lit "undefined"
  end.

End Js.

Import Js.

(** ** [File.zip] *)

(** The browser effects [File.zip] performs after the archive is assembled. *)
Inductive Blob := mkBlob (parts : Uint8Array) (type : string).

Inductive effect :=
| createElement (tag : string)              (* document.createElement(tag) *)
| createObjectURL (b : Blob)                (* window.URL.createObjectURL(b) *)
| click (href : Blob) (download : jsstring). (* link.click() on the anchor *)

(** An element of the parameter [files]: [{ name: string, content: string }]. *)
Record file := { name : jsstring; content : jsstring }.

(** An element of [zipData].  Every property the code reads from it is one
    the object literal defines, so it is a record. *)
Record zipDatum := {
  zd_name : jsstring;
  zd_content : Uint8Array;
  zd_contentLength : Z
}.

(** First loop: [files.forEach((file) => zipData.push({...}))]. *)
Definition zipData_of (files : list file) : list zipDatum :=
  map (fun file =>
         let content := TextEncoder_encode (content file) in
         {| zd_name := name file;
            zd_content := content;
            zd_contentLength := Z.of_nat (length content) |}) files.

(** The object literal pushed on [centralDirectory].  It is kept as a
    property map, because the central header later reads a property by a
    name the literal does not define. *)
Definition cd_object (file : zipDatum) (currentOffset : Z) : gmap string jsval :=
  {[ "name" := JStr (zd_name file);
     "offset" := JNum currentOffset;
     "contentLength" := JNum (zd_contentLength file) ]}.

(** Second loop, with the running [currentOffset]. *)
Fixpoint centralDirectory_from (currentOffset : Z) (zipData : list zipDatum)
  : list (gmap string jsval) :=
  match zipData with
  | [] => []
  | file :: rest =>
      cd_object file currentOffset
      :: centralDirectory_from (currentOffset + zd_contentLength file) rest
  end.

Definition centralDirectory_of (zipData : list zipDatum) : list (gmap string jsval) :=
  centralDirectory_from 0 zipData.

(** The 32-element array literal of the third loop. *)
Definition local_header (file : zipDatum) : Uint8Array :=
  Uint8Array_from (
    (JNum <$> [80; 75; 3; 4]) ++     (* local file header signature *)
    (JNum <$> [10; 0]) ++            (* version needed to extract *)
    (JNum <$> [0; 0]) ++             (* general purpose bit flag *)
    (JNum <$> [0; 0]) ++             (* compression method *)
    (JNum <$> [0; 0; 0; 0]) ++       (* file modification time *)
    (JNum <$> [0; 0; 0; 0]) ++       (* file modification date *)
    (JNum <$> [0; 0; 0; 0]) ++       (* CRC-32 *)
    (JNum <$> [0; 0; 0; 0]) ++       (* compressed size *)
    (JNum <$> [0; 0; 0; 0]) ++       (* uncompressed size *)
    [len (zd_name file); JNum 0]).   (* file name length *)

(** Body of the third loop: the bytes pushed on [zipArray] for one file. *)
Definition fileEntry_of (file : zipDatum) : exn Uint8Array :=
  let header := local_header file in
  let headerArray := Uint8Array_new (plus (len header) (len (zd_name file))) in
  headerArray ← typed_set headerArray header 0;
  headerArray ← typed_set headerArray (TextEncoder_encode (zd_name file)) (length header);
  let content := zd_content file in
  let fileEntry := Uint8Array_new (plus (len headerArray) (len content)) in
  fileEntry ← typed_set fileEntry headerArray 0;
  fileEntry ← typed_set fileEntry content (length headerArray);
  Ok fileEntry.

Definition zipArray_of (zipData : list zipDatum) : exn (list Uint8Array) :=
  forEach_push fileEntry_of zipData.

(** The 48-element array literal of the fourth loop.  [nameLength] is
    [file.name.length]; the last two elements read [file.currentOffset]. *)
Definition central_header (file : gmap string jsval) (nameLength : jsval) : Uint8Array :=
  Uint8Array_from (
    (JNum <$> [80; 75; 1; 2]) ++     (* central file header signature *)
    (JNum <$> [10; 0]) ++            (* version made by *)
    (JNum <$> [10; 0]) ++            (* version needed to extract *)
    (JNum <$> [0; 0]) ++             (* general purpose bit flag *)
    (JNum <$> [0; 0]) ++             (* compression method *)
    (JNum <$> [0; 0; 0; 0]) ++       (* file modification time *)
    (JNum <$> [0; 0; 0; 0]) ++       (* file modification date *)
    (JNum <$> [0; 0; 0; 0]) ++       (* CRC-32 *)
    (JNum <$> [0; 0; 0; 0]) ++       (* compressed size *)
    (JNum <$> [0; 0; 0; 0]) ++       (* uncompressed size *)
    [nameLength; JNum 0] ++          (* file name length *)
    (JNum <$> [0; 0]) ++             (* extra field length *)
    (JNum <$> [0; 0]) ++             (* file comment length *)
    (JNum <$> [0; 0]) ++             (* disk number start *)
    (JNum <$> [0; 0]) ++             (* internal file attributes *)
    (JNum <$> [0; 0; 0; 0]) ++       (* external file attributes *)
    [JNum (band (get file "currentOffset") 255);
        (* relative offset of local header (lo) *)
     JNum (band (shr (get file "currentOffset") 8) 255)]).
        (* relative offset of local header (hi) *)

(** Body of the fourth loop: the bytes pushed on [centralDirectoryArray]. *)
Definition centralEntry_of (file : gmap string jsval) : exn Uint8Array :=
  nameLength ← js_length (get file "name");
  let header := central_header file nameLength in
  let headerArray := Uint8Array_new (plus (len header) nameLength) in
  headerArray ← typed_set headerArray header 0;
  headerArray ← typed_set headerArray (TextEncoder_encode (ToString (get file "name")))
                            (length header);
  Ok headerArray.

Definition centralDirectoryArray_of (centralDirectory : list (gmap string jsval))
  : exn (list Uint8Array) :=
  forEach_push centralEntry_of centralDirectory.

(** The 22-element array literal bound to [endOfCentralDirectory], given the
    value of the identifier [offset]. *)
Definition endOfCentralDirectory_literal (offset : jsval)
    (centralDirectoryArray : list Uint8Array) : Uint8Array :=
  let count := len centralDirectoryArray in
  let size := JNum (reduce_length centralDirectoryArray) in
  Uint8Array_from (
    (JNum <$> [80; 75; 5; 6]) ++     (* end of central directory signature *)
    (JNum <$> [0; 0; 0; 0]) ++       (* number of this disk *)
    (JNum <$> [0; 0; 0; 0]) ++       (* disk with the start of the central directory *)
    [JNum (band count 255);          (* entries on this disk (lo) *)
     JNum (band (shr count 8) 255);  (* entries on this disk (hi) *)
     JNum (band count 255);          (* entries in the central directory (lo) *)
     JNum (band (shr count 8) 255);  (* entries in the central directory (hi) *)
     JNum (band size 4294967295);    (* size of the central directory (lo) *)
     JNum (band (band (shr size 8) 4294967295) 255);
                                     (* size of the central directory (hi) *)
     JNum (band (band offset 4294967295) 255);
                                     (* offset of start of central directory (lo) *)
     JNum (band (shr (band offset 4294967295) 8) 255)] ++
                                     (* offset of start of central directory (hi) *)
    (JNum <$> [0; 0])).              (* .zip file comment length *)

(** Evaluating the literal: the elements before [offset] cannot throw, and
    [offset] is a free identifier, resolved in the global scope. *)
Definition endOfCentralDirectory_of (globals : gmap string Z)
    (centralDirectoryArray : list Uint8Array) : exn Uint8Array :=
  offset ← resolve globals "offset";
  Ok (endOfCentralDirectory_literal offset centralDirectoryArray).

(** The last three loops: every entry is copied into [zipFile] at the running
    [currentOffset], local entries first, then the central directory, then
    the end record. *)
Definition copy_all (zipFile : Uint8Array) (currentOffset : nat)
    (entries : list Uint8Array) : exn (Uint8Array * nat) :=
  foldl (fun acc entry =>
           '(zipFile, currentOffset) ← acc;
           zipFile ← typed_set zipFile entry currentOffset;
           Ok (zipFile, (currentOffset + length entry)%nat))
        (Ok (zipFile, currentOffset)) entries.

(** Everything [File.zip] computes before it touches the document. *)
Definition zipFile_of (globals : gmap string Z) (files : list file) : exn Uint8Array :=
  let zipData := zipData_of files in
  let centralDirectory := centralDirectory_of zipData in
  zipArray ← zipArray_of zipData;
  centralDirectoryArray ← centralDirectoryArray_of centralDirectory;
  endOfCentralDirectory ← endOfCentralDirectory_of globals centralDirectoryArray;
  let zipFile :=
    Uint8Array_new (plus (plus (JNum (reduce_length zipArray))
                               (JNum (reduce_length centralDirectoryArray)))
                         (len endOfCentralDirectory)) in
  '(zipFile, currentOffset) ← copy_all zipFile 0 zipArray;
  '(zipFile, currentOffset) ← copy_all zipFile currentOffset centralDirectoryArray;
  zipFile ← typed_set zipFile endOfCentralDirectory currentOffset;
  Ok zipFile.

(** [File.zip(files, zipFileName)]: the effects performed, in order, and the
    completion.  A throw happens before the first effect. *)
Definition zip (globals : gmap string Z) (files : list file) (zipFileName : jsstring)
  : list effect * exn Blob :=
  match zipFile_of globals files with
  | Throw e => ([], Throw e)
  | Ok zipFile =>
      let zipBlob := mkBlob zipFile "application/zip" in
      ([createElement "a"; createObjectURL zipBlob; click zipBlob zipFileName],
       Ok zipBlob)
  end.

(** *** Reading the headers back *)

(** A little-endian field of [width] bytes at byte [pos] of a record. *)
Definition field (record : Uint8Array) (pos width : nat) : Z :=
  foldr (fun b acc => b + 256 * acc) 0 (take width (drop pos record)).

(** The fields of a local header, at the positions the comments of the
    array literal give them.  The literal spends four bytes on the time and
    four on the date, so its CRC-32 starts at byte 18 and its name length at
    byte 30; in the ZIP layout they start at bytes 14 and 26. *)
Definition local_signature (h : Uint8Array) : Z := field h 0 4.
Definition local_crc32 (h : Uint8Array) : Z := field h 18 4.
Definition local_compressed_size (h : Uint8Array) : Z := field h 22 4.
Definition local_uncompressed_size (h : Uint8Array) : Z := field h 26 4.
Definition local_name_length (h : Uint8Array) : Z := field h 30 2.

(** The last field of a central header: the two bytes the literal writes
    for the offset of the local header.  In the ZIP layout that field is the
    four bytes from byte 42 on. *)
Definition central_signature (h : Uint8Array) : Z := field h 0 4.
Definition central_local_offset (h : Uint8Array) : Z := field h 46 2.
Definition central_local_offset_zip (h : Uint8Array) : Z := field h 42 4.

Definition is_ascii (s : jsstring) : bool := forallb (fun c => c <? 128) s.

(** Every name of the list is plain ASCII. *)
Definition ascii_names (files : list file) : bool :=
  forallb (fun f => is_ascii (name f)) files.

(** *** What the loops produce when nothing throws *)

Definition local_entry_bytes (file : zipDatum) : Uint8Array :=
  local_header file ++ TextEncoder_encode (zd_name file) ++ zd_content file.

Fixpoint central_entries_bytes (currentOffset : Z) (zipData : list zipDatum)
  : list Uint8Array :=
  match zipData with
  | [] => []
  | file :: rest =>
      (central_header (cd_object file currentOffset) (len (zd_name file))
         ++ TextEncoder_encode (zd_name file))
      :: central_entries_bytes (currentOffset + zd_contentLength file) rest
  end.

(** The bytes of the archive for a given value of [offset]. *)
Definition archive_bytes (offset : jsval) (files : list file) : Uint8Array :=
  concat (local_entry_bytes <$> zipData_of files)
    ++ concat (central_entries_bytes 0 (zipData_of files))
    ++ endOfCentralDirectory_literal offset (central_entries_bytes 0 (zipData_of files)).

(** The byte at which each entry of [zipArray] begins in [zipFile]. *)
Fixpoint starts_from (currentOffset : nat) (zipArray : list Uint8Array) : list nat :=
  match zipArray with
  | [] => []
  | entry :: rest => currentOffset :: starts_from (currentOffset + length entry) rest
  end.

(** ** [File.unzip] *)

(** An entry of [zip.files] as [JSZip] presents it: its name, whether it is
    a folder, and how the promise of [.async("string")] settles. *)
Record ZipObject := {
  zo_name : jsstring;
  zo_dir : bool;
  zo_async_string : exn jsstring
}.

(** What the page contributes to a call: how [reader.readAsArrayBuffer]
    ends ([None] when [onerror] fires), and the binding of the free identifier
    [JSZip] when the page has one, given by how [zip.loadAsync(arrayBuffer)]
    settles (the entries in [forEach] order, or the rejection reason). *)
Record host := {
  readAsArrayBuffer : Blob -> option Uint8Array;
  JSZip : option (Uint8Array -> exn (list ZipObject))
}.

(** The promise [File.unzip] returns.  When fulfilled, its value is the
    array [extractedFiles] itself, not a copy. *)
Inductive settled :=
| Pending
| Fulfilled
| Rejected (reason : js_error).

Record machine := {
  extractedFiles : list file;
  promise : settled
}.

(** What the caller holds: nothing until the promise is fulfilled, then the
    array with whatever it contains at the moment it is read. *)
Definition received (m : machine) : option (list file) :=
  match promise m with
  | Fulfilled => Some (extractedFiles m)
  | _ => None
  end.

(** The callbacks left for the event loop. *)
Inductive job :=
| entry_settled (name : jsstring) (outcome : exn jsstring)
    (* [.async("string")] of one entry settled *)
| all_settled.
    (* [Promise.all(extractedFiles)] settled *)

#[global] Instance job_eq_dec : EqDecision job.
Proof. solve_decision. Defined.

(** [zipFiles.file(name)]: the entry of that name, [null] for a folder. *)
Definition file_of (zipFiles : list ZipObject) (name : jsstring) : option ZipObject :=
  match find (fun o => bool_decide (zo_name o = name)) zipFiles with
  | Some o => if zo_dir o then None else Some o
  | None => None
  end.

(** [zip.forEach(...)]: for each entry the callback takes the promise of its
    content and registers [content => extractedFiles.push(...)] on it; on a
    [null] entry the callback throws and the loop stops. *)
Fixpoint forEach_register (zipFiles entries : list ZipObject) : list job * option js_error :=
  match entries with
  | [] => ([], None)
  | zipEntry :: rest =>
      match file_of zipFiles (zo_name zipEntry) with
      | None => ([], Some (TypeError "null (reading 'async')"))
      | Some o =>
          let '(jobs, thrown) := forEach_register zipFiles rest in
          (entry_settled (zo_name zipEntry) (zo_async_string o) :: jobs, thrown)
      end
  end.

(** [reader.onload]: the state once the callbacks of [loadAsync] have run,
    and the jobs still queued.  [Promise.all] is called on [extractedFiles]
    as it is when [forEach] returns. *)
Definition onload (h : host) (arrayBuffer : Uint8Array) : machine * list job :=
  match JSZip h with
  | None =>
      (* [new JSZip()] throws inside the handler; nothing settles *)
      ({| extractedFiles := []; promise := Pending |}, [])
  | Some loadAsync =>
      match loadAsync arrayBuffer with
      | Throw err =>
          ({| extractedFiles := [];
              promise := Rejected (Error ("Failed to unzip the file: " +:+ message err)) |},
           [])
      | Ok zipFiles =>
          match forEach_register zipFiles zipFiles with
          | (jobs, Some err) =>
              ({| extractedFiles := [];
                  promise := Rejected (Error ("Failed to unzip the file: " +:+ message err)) |},
               jobs)
          | (jobs, None) =>
              ({| extractedFiles := []; promise := Pending |}, jobs ++ [all_settled])
          end
      end
  end.

(** [File.unzip(zipBlob)] up to the point where only queued jobs remain. *)
Definition unzip_start (h : host) (zipBlob : Blob) : machine * list job :=
  match readAsArrayBuffer h zipBlob with
  | None =>
      ({| extractedFiles := []; promise := Rejected (Error "Error reading zip file.") |}, [])
  | Some arrayBuffer => onload h arrayBuffer
  end.

(** One job.  A fulfilled entry pushes on the shared array; a rejected one
    has no handler and changes nothing; [all_settled] runs
    [() => resolve(extractedFiles)], which settles a pending promise only. *)
Definition run_job (m : machine) (j : job) : machine :=
  match j with
  | entry_settled name (Ok content) =>
      {| extractedFiles := extractedFiles m ++ [{| name := name; content := content |}];
         promise := promise m |}
  | entry_settled _ (Throw _) => m
  | all_settled =>
      {| extractedFiles := extractedFiles m;
         promise := match promise m with Pending => Fulfilled | p => p end |}
  end.

Definition run_jobs (m : machine) (order : list job) : machine := foldl run_job m order.

(** The state after the event loop ran the jobs [order] of the call. *)
Definition unzip (h : host) (zipBlob : Blob) (order : list job) : machine :=
  run_jobs (unzip_start h zipBlob).1 order.

(** The jobs a call queues; the event loop runs them in some order. *)
Definition unzip_jobs (h : host) (zipBlob : Blob) : list job := (unzip_start h zipBlob).2.

(** The entries a job pushes. *)
Definition pushed (j : job) : option file :=
  match j with
  | entry_settled name (Ok content) => Some {| name := name; content := content |}
  | _ => None
  end.

(** ** CRC-32 *)

(** The checksum a ZIP header declares (reflected polynomial EDB88320).  The
    bundle has no such function; it is stated here to say what a header
    ought to hold. *)
Definition crc32_bit (c : Z) : Z :=
  if Z.testbit c 0 then Z.lxor (Z.shiftr c 1) 3988292384 else Z.shiftr c 1.

Definition crc32_byte (crc b : Z) : Z :=
  Nat.iter 8 crc32_bit (Z.lxor crc b).

Definition crc32 (bytes : Uint8Array) : Z :=
  Z.lxor (foldl crc32_byte 4294967295 bytes) 4294967295.

(** ** Sample inputs *)

Definition hello : file := {| name := lit "hello.txt"; content := lit "Hi there" |}.
(** A name that is the single letter e with an acute accent (U+00E9). *)
Definition eacute : file := {| name := [233]; content := [] |}.
Definition unnamed : file := {| name := []; content := lit "x" |}.
Definition two_files : list file :=
  [ {| name := lit "a.txt"; content := lit "first" |};
    {| name := lit "b.txt"; content := lit "second entry" |} ].

(** A page that binds the identifier [offset] to 0. *)
Definition page_with_offset : gmap string Z := {[ "offset" := 0 ]}.

(** The archive [File.zip] assembles for [hello] in that page.  Its header
    declares CRC-32 zero. *)
Definition hello_blob : Blob :=
  mkBlob (archive_bytes (JNum 0) [hello]) "application/zip".

Definition blob_bytes (b : Blob) : Uint8Array := let '(mkBlob parts _) := b in parts.

(** [hello_blob] with one bit of its content changed: byte 41, the first
    after the 32 bytes of the header and the 9 of the name, goes from 72 to
    73. *)
Definition flipped_blob : Blob :=
  mkBlob (<[41%nat := 73]> (blob_bytes hello_blob)) "application/zip".

(** [reader.lastIndexOfSignature(sig)] of [JSZip]: the last position at
    which the four bytes occur. *)
Definition lastIndexOfSignature (sig data : Uint8Array) : option nat :=
  last (filter (fun i => take (length sig) (drop i data) = sig) (seq 0 (length data))).

(** The first step of [JSZip.loadAsync] (JSZip 3, [readEndOfCentral]), as far
    as it bears on the archives above.  The library finds the last
    end-of-central-directory signature and reads the record by the ZIP
    layout: four 2-byte counters at bytes 4-11, the size of the central
    directory at 12-15, its offset at 16-19, the length of the comment at
    20-21.  When size and offset together point past the record it rejects
    the buffer, [extraBytes < 0].  A buffer without the signature, a record
    cut short, one that announces ZIP64 (a field of all ones) and every
    buffer that passes the test are read by other parts of the library,
    which are left to [further]. *)
Definition JSZip_loadAsync (further : Uint8Array -> exn (list ZipObject))
    (data : Uint8Array) : exn (list ZipObject) :=
  match lastIndexOfSignature [80; 75; 5; 6] data with
  | None => further data
  | Some endOfCentralDirOffset =>
      let record := drop endOfCentralDirOffset data in
      let centralDirSize := field record 12 4 in
      let centralDirOffset := field record 16 4 in
      let zipCommentLength := field record 20 2 in
      let zip64 :=
        existsb (fun pos => field record pos 2 =? 65535) [4; 6; 8; 10]%nat
        || (centralDirSize =? 4294967295) || (centralDirOffset =? 4294967295) in
      let extraBytes :=
        Z.of_nat endOfCentralDirOffset - (centralDirOffset + centralDirSize) in
      if (Z.of_nat (length record) <? 22 + zipCommentLength) || zip64 then further data
      else if extraBytes <? 0
           then Throw (Error ("Corrupted zip: missing " +:+ pretty (Z.abs extraBytes)
                              +:+ " bytes."))
           else further data
  end.

(** A page with [JSZip] loaded, whose reader hands over the bytes of the
    blob. *)
Definition jszip_page (further : Uint8Array -> exn (list ZipObject)) : host :=
  {| readAsArrayBuffer := fun b => Some (blob_bytes b);
     JSZip := Some (JSZip_loadAsync further) |}.

(** A page whose [JSZip] lists two files and fails to extract the second. *)
Definition half_broken_page : host :=
  {| readAsArrayBuffer := fun b => Some (blob_bytes b);
     JSZip := Some (fun _ =>
       Ok [ {| zo_name := lit "a.txt"; zo_dir := false;
               zo_async_string := Ok (lit "A") |};
            {| zo_name := lit "b.txt"; zo_dir := false;
               zo_async_string := Throw (Error "invalid stored block lengths") |} ]) |}.

(** ** Further definitions: counters of the loops *)

(** The values a running counter takes before each step. *)
Fixpoint running_totals (start : Z) (steps : list Z) : list Z :=
  match steps with
  | [] => []
  | d :: rest => start :: running_totals (start + d) rest
  end.

(** The number of bytes of the local entry and of the central entry that
    [File.zip] builds for a file. *)
Definition local_entry_size (f : file) : nat :=
  32 + length (name f) + length (TextEncoder_encode (content f)).

Definition central_entry_size (f : file) : nat := 48 + length (name f).

(** What a fulfilled or rejected [.async("string")] leaves in the array. *)
Definition extracted (o : ZipObject) : option file :=
  match zo_async_string o with
  | Ok content => Some {| name := zo_name o; content := content |}
  | Throw _ => None
  end.

(** The job [forEach] registers for a file entry. *)
Definition job_of (o : ZipObject) : job := entry_settled (zo_name o) (zo_async_string o).

(** A page whose [JSZip] lists a folder next to a file. *)
Definition folder_page : host :=
  {| readAsArrayBuffer := fun b => Some (blob_bytes b);
     JSZip := Some (fun _ =>
       Ok [ {| zo_name := lit "a.txt"; zo_dir := false;
               zo_async_string := Ok (lit "A") |};
            {| zo_name := lit "docs/"; zo_dir := true;
               zo_async_string := Ok [] |} ]) |}.

(** ** More of the platform: [Blob], number formatting, [RegExp] *)

Definition Blob_size (b : Blob) : Z := Z.of_nat (length (blob_bytes b)).

(** [blob.slice(start, end)]: a negative bound counts from the end, both
    bounds are clamped to the blob, and the new blob has no type. *)
Definition Blob_slice (blob : Blob) (start end_ : Z) : Blob :=
  let size := Blob_size blob in
  let relativeStart := if start <? 0 then Z.max (size + start) 0 else Z.min start size in
  let relativeEnd := if end_ <? 0 then Z.max (size + end_) 0 else Z.min end_ size in
  let span := Z.max (relativeEnd - relativeStart) 0 in
  mkBlob (take (Z.to_nat span) (drop (Z.to_nat relativeStart) (blob_bytes blob))) "".

(** The digit of value [d] in [toString(16)]: 0-9, then a-f. *)
Definition hex_digit (d : Z) : Z := if d <? 10 then 48 + d else 87 + d.

Fixpoint radix16 (fuel : nat) (n : Z) : jsstring :=
  match fuel with
  | O => []
  | S fuel' =>
      if n <? 16 then [hex_digit n]
      else radix16 fuel' (n / 16) ++ [hex_digit (n mod 16)]
  end.

(** [n.toString(16)] for an integer [n]; a number below 2^k has at most [k]
    hexadecimal digits, which bounds the recursion. *)
Definition toString16 (n : Z) : jsstring :=
  if n <? 0 then 45 :: radix16 (S (Z.to_nat (Z.log2 (- n)))) (- n)
  else radix16 (S (Z.to_nat (Z.log2 n))) n.

(** [s.padStart(targetLength, padString)]. *)
Definition padStart (targetLength : nat) (padString s : jsstring) : jsstring :=
  let missing := (targetLength - length s)%nat in
  take missing (concat (replicate missing padString)) ++ s.

(** The value of a hexadecimal digit, in either case. *)
Definition hex_value (c : Z) : option Z :=
  if (48 <=? c) && (c <=? 57) then Some (c - 48)
  else if (97 <=? c) && (c <=? 102) then Some (c - 87)
  else if (65 <=? c) && (c <=? 70) then Some (c - 55)
  else None.

(** White space as [parseInt] skips it. *)
Definition is_white_space (c : Z) : bool :=
  bool_decide (c ∈ [9; 10; 11; 12; 13; 32; 160; 5760; 8232; 8233; 8239; 8287; 12288; 65279])
  || ((8192 <=? c) && (c <=? 8202)).

Fixpoint skip_white_space (s : jsstring) : jsstring :=
  match s with
  | c :: s' => if is_white_space c then skip_white_space s' else s
  | [] => []
  end.

(** The value of the longest prefix of hexadecimal digits; [None] (NaN) when
    there is no digit. *)
Fixpoint hex_prefix (acc : option Z) (s : jsstring) : option Z :=
  match s with
  | [] => acc
  | c :: s' =>
      match hex_value c with
      | Some d => hex_prefix (Some (16 * default 0 acc + d)) s'
      | None => acc
      end
  end.

(** [parseInt(s, 16)], [None] standing for NaN. *)
Definition parseInt16 (s : jsstring) : option Z :=
  let s := skip_white_space s in
  let '(sign, s) := match s with
                    | 45 :: s' => (-1, s')
                    | 43 :: s' => (1, s')
                    | _ => (1, s)
                    end in
  let s := match s with
           | 48 :: 120 :: s' => s'
           | 48 :: 88 :: s' => s'
           | _ => s
           end in
  (fun v => sign * v) <$> hex_prefix None s.

(** Regular expressions without groups to read back, look-around or
    back-references; [test] on a pattern anchored at both ends is membership
    in the language. *)
Inductive regex :=
| Eps
| Void
| Chr (class : Z -> bool)
| Seq (r1 r2 : regex)
| Alt (r1 r2 : regex)
| Star (r : regex).

Definition Opt (r : regex) : regex := Alt r Eps.
Definition Plus (r : regex) : regex := Seq r (Star r).
Definition Lit (c : Z) : regex := Chr (Z.eqb c).

Fixpoint Str (s : jsstring) : regex :=
  match s with
  | [] => Eps
  | c :: s' => Seq (Lit c) (Str s')
  end.

Fixpoint nullable (r : regex) : bool :=
  match r with
  | Eps => true
  | Void => false
  | Chr _ => false
  | Seq r1 r2 => nullable r1 && nullable r2
  | Alt r1 r2 => nullable r1 || nullable r2
  | Star _ => true
  end.

(** What is left to match after the character [c]. *)
Fixpoint deriv (c : Z) (r : regex) : regex :=
  match r with
  | Eps => Void
  | Void => Void
  | Chr class => if class c then Eps else Void
  | Seq r1 r2 =>
      if nullable r1 then Alt (Seq (deriv c r1) r2) (deriv c r2)
      else Seq (deriv c r1) r2
  | Alt r1 r2 => Alt (deriv c r1) (deriv c r2)
  | Star r1 => Seq (deriv c r1) (Star r1)
  end.

(** [/^r$/.test(s)]. *)
Definition re_test (r : regex) (s : jsstring) : bool :=
  nullable (foldl (fun r c => deriv c r) r s).

(** The language of a pattern. *)
Inductive lang : regex -> jsstring -> Prop :=
| lang_Eps : lang Eps []
| lang_Chr class c : class c = true -> lang (Chr class) [c]
| lang_Seq r1 r2 s1 s2 : lang r1 s1 -> lang r2 s2 -> lang (Seq r1 r2) (s1 ++ s2)
| lang_Alt_l r1 r2 s : lang r1 s -> lang (Alt r1 r2) s
| lang_Alt_r r1 r2 s : lang r2 s -> lang (Alt r1 r2) s
| lang_Star_nil r : lang (Star r) []
| lang_Star_cons r s1 s2 : lang r s1 -> lang (Star r) s2 -> lang (Star r) (s1 ++ s2).

Definition is_digit (c : Z) : bool := (48 <=? c) && (c <=? 57).

(** [[a-f\d]] under the flag [i]. *)
Definition is_hex (c : Z) : bool :=
  is_digit c || ((97 <=? c) && (c <=? 102)) || ((65 <=? c) && (c <=? 70)).

(** [String.prototype.toLowerCase] on the letters A-Z; other ASCII characters
    are kept (characters outside ASCII are not modelled). *)
Definition to_lower (c : Z) : Z := if (65 <=? c) && (c <=? 90) then c + 32 else c.

(** ** [Blob.chunkBlob], [Blob.blobToHex] *)

(** The [while] loop of [chunkBlob]; [None] when [fuel] iterations did not
    reach the end of the blob.  [chunkSize] is an integer: with a fraction
    the bounds handed to [slice] are fractions too, and how they are rounded
    is not modelled. *)
Fixpoint chunkBlob_loop (fuel : nat) (blob : Blob) (chunkSize offset2 : Z)
    (chunks : list Blob) : option (list Blob) :=
  match fuel with
  | O => None
  | S fuel' =>
      if offset2 <? Blob_size blob then
        let chunk := Blob_slice blob offset2 (offset2 + chunkSize) in
        chunkBlob_loop fuel' blob chunkSize (offset2 + chunkSize) (chunks ++ [chunk])
      else Some chunks
  end.

Definition chunkBlob (fuel : nat) (blob : Blob) (chunkSize : Z) : option (list Blob) :=
  chunkBlob_loop fuel blob chunkSize 0 [].

(** The string [blobToHex] resolves with, from the bytes of the blob. *)
Definition blobToHex (blob : Blob) : jsstring :=
  concat ((fun byte => padStart 2 (lit "0") (toString16 byte)) <$> blob_bytes blob).

Definition sample_blob : Blob := mkBlob [0; 15; 16; 255] "application/octet-stream".

(** ** [Color.rgbToHex], [Color.hexToRgb], [Color.invertColor] *)

(** [toHex] of [rgbToHex], on an integer or NaN ([None]).  The notation
    of a fraction in base 16, which the language leaves to the
    implementation, is not modelled. *)
Definition toHex (c : option Z) : jsstring :=
  let hex := match c with
             | Some n => toString16 n
             | None => lit "NaN"
             end in
  if (length hex =? 1)%nat then lit "0" ++ hex else hex.

Definition rgbToHex (r g b : option Z) : jsstring :=
  lit "#" ++ toHex r ++ toHex g ++ toHex b.

(** [/^#?([a-f\d]{2})([a-f\d]{2})([a-f\d]{2})$/i]. *)
Definition hex_pair : regex := Seq (Chr is_hex) (Chr is_hex).
Definition hex_color_regex : regex :=
  Seq (Opt (Lit 35)) (Seq hex_pair (Seq hex_pair hex_pair)).

(** The object [{ r, g, b }]. *)
Record rgb := { rgb_r : option Z; rgb_g : option Z; rgb_b : option Z }.

(** The three groups of a match are the last six characters, two each. *)
Definition hexToRgb (hex : jsstring) : option rgb :=
  if re_test hex_color_regex hex then
    let groups := drop (length hex - 6) hex in
    Some {| rgb_r := parseInt16 (take 2 groups);
            rgb_g := parseInt16 (take 2 (drop 2 groups));
            rgb_b := parseInt16 (take 2 (drop 4 groups)) |}
  else None.

(** [invertColor]: destructuring [null] throws. *)
Definition invertColor (color : jsstring) : exn jsstring :=
  match hexToRgb color with
  | None => Throw (TypeError "null (destructuring 'r')")
  | Some c =>
      Ok (rgbToHex (Z.sub 255 <$> rgb_r c) (Z.sub 255 <$> rgb_g c) (Z.sub 255 <$> rgb_b c))
  end.

(** The characters [is_hex] accepts. *)
Definition hex_chars : list Z := seqZ 48 10 ++ seqZ 65 6 ++ seqZ 97 6.

(** ** [IP] *)

(** [s.split(sep)] for a one-character separator. *)
Fixpoint split_on (sep : Z) (s : jsstring) : list jsstring :=
  match s with
  | [] => [[]]
  | c :: s' =>
      if c =? sep then [] :: split_on sep s'
      else match split_on sep s' with
           | part :: parts => (c :: part) :: parts
           | [] => [[c]]
           end
  end.

(** [parts.join(sep)] on strings. *)
Fixpoint join (sep : jsstring) (parts : list jsstring) : jsstring :=
  match parts with
  | [] => []
  | [part] => part
  | part :: rest => part ++ sep ++ join sep rest
  end.

(** [Number(s)] as [ToNumber] models it: decimal digit strings, NaN ([None])
    otherwise.  [IP] applies it to the parts of a validated address only. *)
Definition Number (s : jsstring) : option Z := digits 0 s.

(** A number or NaN as a value, and in base 10 and 16. *)
Definition num_val (n : option Z) : jsval :=
  match n with
  | Some n => JNum n
  | None => JUndefined
  end.

Definition num_toString16 (n : option Z) : jsstring :=
  match n with
  | Some n => toString16 n
  | None => lit "NaN"
  end.

Definition in_range (lo hi c : Z) : bool := (lo <=? c) && (c <=? hi).

(** A run of one-character classes. *)
Fixpoint Classes (classes : list (Z -> bool)) : regex :=
  match classes with
  | [] => Eps
  | class :: rest => Seq (Chr class) (Classes rest)
  end.

(** [(25[0-5]|2[0-4][0-9]|[01]?[0-9][0-9]?)]. *)
Definition octet_regex : regex :=
  Alt (Classes [Z.eqb 50; Z.eqb 53; in_range 48 53])
      (Alt (Classes [Z.eqb 50; in_range 48 52; is_digit])
           (Seq (Opt (Chr (in_range 48 49))) (Seq (Chr is_digit) (Opt (Chr is_digit))))).

Definition ipv4Regex : regex :=
  Seq octet_regex (Seq (Lit 46) (Seq octet_regex (Seq (Lit 46)
    (Seq octet_regex (Seq (Lit 46) octet_regex))))).

Definition validateIPv4Address (ip : jsstring) : bool := re_test ipv4Regex ip.

(** [/^(::(?:[fF]{4}:))(\d+\.\d+\.\d+\.\d+)$/]. *)
Definition is_fF (c : Z) : bool := (c =? 102) || (c =? 70).

Definition dotted_digits : regex :=
  Seq (Plus (Chr is_digit)) (Seq (Lit 46) (Seq (Plus (Chr is_digit)) (Seq (Lit 46)
    (Seq (Plus (Chr is_digit)) (Seq (Lit 46) (Plus (Chr is_digit))))))).

Definition ipv6Regex : regex :=
  Seq (Classes [Z.eqb 58; Z.eqb 58; is_fF; is_fF; is_fF; is_fF; Z.eqb 58]) dotted_digits.

Definition validateIPv6Address (ip : jsstring) : bool := re_test ipv6Regex ip.

(** [convertIPv4ToIPv6] ([console.error] is not modelled). *)
Definition convertIPv4ToIPv6 (ip : jsstring) : option jsstring :=
  if negb (validateIPv4Address ip) then None
  else
    let segments := Number <$> split_on 46 ip in
    let hexSegments := (fun segment => padStart 2 (lit "0") (num_toString16 segment))
                         <$> segments in
    Some (lit "::ffff:" ++ join (lit ":") hexSegments).

(** [/::ffff:([\da-f]{2}):([\da-f]{2}):([\da-f]{2}):([\da-f]{2})/i]: every
    match has 18 characters. *)
Definition mapped_regex : regex :=
  Classes [Z.eqb 58; Z.eqb 58; is_fF; is_fF; is_fF; is_fF; Z.eqb 58;
           is_hex; is_hex; Z.eqb 58; is_hex; is_hex; Z.eqb 58;
           is_hex; is_hex; Z.eqb 58; is_hex; is_hex].

(** [s.match(r)] for a pattern whose matches all have [width] characters:
    the leftmost window of that width that matches. *)
Fixpoint first_match (r : regex) (width : nat) (s : jsstring) : option jsstring :=
  let window := take width s in
  if (length window =? width)%nat && re_test r window then Some window
  else match s with
       | [] => None
       | _ :: s' => first_match r width s'
       end.

(** [convertIPv6ToIPv4]; the four groups of the match are the characters
    7-8, 10-11, 13-14 and 16-17 of the window. *)
Definition convertIPv6ToIPv4 (ip : jsstring) : option jsstring :=
  if negb (validateIPv6Address ip) then None
  else match first_match mapped_regex 18 ip with
       | None => None
       | Some window =>
           let groups := [take 2 (drop 7 window); take 2 (drop 10 window);
                          take 2 (drop 13 window); take 2 (drop 16 window)] in
           let ipv4Parts := parseInt16 <$> groups in
           Some (join (lit ".")
                      ((fun part => match part with
                                    | Some n => lit (pretty n)
                                    | None => lit "NaN"
                                    end) <$> ipv4Parts))
       end.

Definition getIPVersion (ip : jsstring) : option Z :=
  if validateIPv4Address ip then Some 4
  else if validateIPv6Address ip then Some 6
  else None.

Definition validMasks : list jsstring :=
  lit <$> [ "255.255.255.255"; "255.255.255.254"; "255.255.255.252"; "255.255.255.248";
            "255.255.255.240"; "255.255.255.224"; "255.255.255.192"; "255.255.255.128";
            "255.255.255.0"; "255.255.254.0"; "255.255.252.0"; "255.255.248.0";
            "255.255.240.0"; "255.255.224.0"; "255.255.192.0"; "255.255.128.0";
            "255.255.0.0"; "255.254.0.0"; "255.252.0.0"; "255.248.0.0";
            "255.240.0.0"; "255.224.0.0"; "255.192.0.0"; "255.128.0.0";
            "255.0.0.0" ].

Definition isValidSubnetMask (mask : jsstring) : bool := bool_decide (mask ∈ validMasks).

(** [calculateNetworkAddress]; [maskSegments[i]] past the end is
    [undefined]. *)
Definition calculateNetworkAddress (ip mask : jsstring) : option jsstring :=
  if negb (validateIPv4Address ip) || negb (isValidSubnetMask mask) then None
  else
    let ipSegments := Number <$> split_on 46 ip in
    let maskSegments := Number <$> split_on 46 mask in
    let networkAddress :=
      imap (fun i segment =>
              band (num_val segment) (default JUndefined (num_val <$> maskSegments !! i)))
           ipSegments in
    Some (join (lit ".") ((fun n => lit (pretty n)) <$> networkAddress)).

(** [network1 === network2], on strings or [null]. *)
Definition areIPsInSameNetwork (ip1 ip2 mask : jsstring) : bool :=
  bool_decide (calculateNetworkAddress ip1 mask = calculateNetworkAddress ip2 mask).

(** A part of a dotted address that [ipv4Regex] accepts: one to three
    digits whose value is at most 255. *)
Definition is_octet (s : jsstring) : bool :=
  (1 <=? length s)%nat && (length s <=? 3)%nat && forallb is_digit s
  && match digits 0 s with
     | Some v => v <=? 255
     | None => false
     end.

(** Every character class of a pattern only accepts characters in [P]. *)
Fixpoint classes_in (P : Z -> Prop) (r : regex) : Prop :=
  match r with
  | Chr class => forall c, class c = true -> P c
  | Seq r1 r2 | Alt r1 r2 => classes_in P r1 /\ classes_in P r2
  | Star r1 => classes_in P r1
  | Eps | Void => True
  end.

Definition digit_or_dot (c : Z) : Prop := is_digit c = true \/ c = 46.

(** ** Properties of the platform pieces *)

Section Encoder.

Lemma utf8_scalar_length u :
  (1 <= length (utf8_scalar u))%nat
  /\ (128 <= u -> (2 <= length (utf8_scalar u))%nat).
Proof.
  unfold utf8_scalar.
  destruct (Z.ltb_spec u 128), (Z.ltb_spec u 2048), (Z.ltb_spec u 65536);
    simpl; split; lia.
Qed.

Lemma utf8_scalar_ascii u : u < 128 -> utf8_scalar u = [u].
Proof. intros H. unfold utf8_scalar. destruct (Z.ltb_spec u 128); [done | lia]. Qed.

Lemma utf8_scalar_astral u : 65536 <= u -> length (utf8_scalar u) = 4%nat.
Proof.
  intros H. unfold utf8_scalar.
  destruct (Z.ltb_spec u 128), (Z.ltb_spec u 2048), (Z.ltb_spec u 65536);
    try lia; done.
Qed.

(** Induction that peels one or two code units, as the encoder does. *)
Lemma jsstring_pair_ind (P : jsstring -> Prop) :
  P [] ->
  (forall c, P [c]) ->
  (forall c d rest, P rest -> P (d :: rest) -> P (c :: d :: rest)) ->
  forall s, P s.
Proof.
  intros Hnil Hone Hstep s.
  assert (P s /\ forall c, P (c :: s)) as [H _]; [| exact H].
  induction s as [| d rest [IH1 IH2]]; split; auto.
Qed.

(** The encoding never has fewer bytes than the string has code units. *)
Lemma encode_length_ge s : (length s <= length (TextEncoder_encode s))%nat.
Proof.
  induction s as [| c | c d rest IH1 IH2] using jsstring_pair_ind.
  - done.
  - simpl. destruct (is_high_surrogate c); [simpl; lia |].
    destruct (is_low_surrogate c); [simpl; lia |].
    rewrite length_app. pose proof (utf8_scalar_length c) as [? _]. simpl. lia.
  - change (TextEncoder_encode (c :: d :: rest)) with
      (if is_high_surrogate c then
         if is_low_surrogate d
         then utf8_scalar (65536 + (c - 55296) * 1024 + (d - 56320))
                ++ TextEncoder_encode rest
         else utf8_scalar 65533 ++ TextEncoder_encode (d :: rest)
       else if is_low_surrogate c then utf8_scalar 65533 ++ TextEncoder_encode (d :: rest)
       else utf8_scalar c ++ TextEncoder_encode (d :: rest)).
    destruct (is_high_surrogate c) eqn:Hc.
    + destruct (is_low_surrogate d) eqn:Hd.
      * rewrite length_app, utf8_scalar_astral; [simpl; lia |].
        unfold is_high_surrogate, is_low_surrogate in *. lia.
      * rewrite length_app. simpl in *. lia.
    + destruct (is_low_surrogate c).
      * rewrite length_app. simpl in *. lia.
      * rewrite length_app. pose proof (utf8_scalar_length c) as [? _].
        simpl in *. lia.
Qed.

(** An ASCII string is its own encoding. *)
Lemma encode_ascii s : is_ascii s = true -> TextEncoder_encode s = s.
Proof.
  induction s as [| c rest IH]; [done |].
  simpl. intros [Hc Hrest]%andb_true_iff.
  apply Z.ltb_lt in Hc.
  replace (is_high_surrogate c) with false
    by (unfold is_high_surrogate; lia).
  replace (is_low_surrogate c) with false
    by (unfold is_low_surrogate; lia).
  rewrite utf8_scalar_ascii by done. simpl. by rewrite IH.
Qed.

(** One code unit outside ASCII makes the encoding strictly longer. *)
Lemma encode_length_gt s :
  is_ascii s = false -> (length s < length (TextEncoder_encode s))%nat.
Proof.
  induction s as [| c rest IH]; [done |].
  intros Hs. simpl in Hs.
  pose proof (encode_length_ge rest) as Hrest.
  destruct rest as [| d rest'].
  - simpl. destruct (is_high_surrogate c); [simpl; lia |].
    destruct (is_low_surrogate c); [simpl; lia |].
    destruct (Z.ltb_spec c 128); [done |].
    pose proof (utf8_scalar_length c) as [_ ?]. rewrite length_app. simpl. lia.
  - change (TextEncoder_encode (c :: d :: rest')) with
      (if is_high_surrogate c then
         if is_low_surrogate d
         then utf8_scalar (65536 + (c - 55296) * 1024 + (d - 56320))
                ++ TextEncoder_encode rest'
         else utf8_scalar 65533 ++ TextEncoder_encode (d :: rest')
       else if is_low_surrogate c then utf8_scalar 65533 ++ TextEncoder_encode (d :: rest')
       else utf8_scalar c ++ TextEncoder_encode (d :: rest')).
    destruct (is_high_surrogate c) eqn:Hc.
    + destruct (is_low_surrogate d) eqn:Hd.
      * pose proof (encode_length_ge rest').
        rewrite length_app, utf8_scalar_astral; [simpl; lia |].
        unfold is_high_surrogate, is_low_surrogate in *. lia.
      * rewrite length_app. simpl in *. lia.
    + destruct (is_low_surrogate c).
      * rewrite length_app. simpl in *. lia.
      * rewrite length_app. pose proof (utf8_scalar_length c) as [? Hbig].
        destruct (Z.ltb_spec c 128) as [Hlt | Hge].
        -- simpl in Hs. specialize (IH Hs). simpl in *. lia.
        -- specialize (Hbig Hge). simpl in *. lia.
Qed.

End Encoder.

Section Completion.

Lemma bind_Ok {A B} (a : A) (k : A -> exn B) : (Ok a ≫= k) = k a.
Proof. done. Qed.

End Completion.

Section TypedArrays.

Lemma Uint8Array_new_plus {A B} (a : list A) (b : list B) :
  Uint8Array_new (plus (len a) (len b)) = replicate (length a + length b) 0.
Proof.
  unfold Uint8Array_new, plus, len. simpl.
  by rewrite <- Nat2Z.inj_add, Nat2Z.id.
Qed.

(** Writing into the zero tail of a buffer: the source must fit in it. *)
Lemma typed_set_zeros (pre src : Uint8Array) (m : nat) :
  typed_set (pre ++ replicate m 0) src (length pre) =
  if (m <? length src)%nat then Throw RangeError
  else Ok (pre ++ src ++ replicate (m - length src) 0).
Proof.
  unfold typed_set. rewrite length_app, length_replicate.
  destruct (Nat.ltb_spec m (length src)) as [Hlt | Hge].
  - destruct (Nat.ltb_spec (length pre + m) (length pre + length src)); [done | lia].
  - destruct (Nat.ltb_spec (length pre + m) (length pre + length src)); [lia |].
    by rewrite take_app_length, drop_app_add, drop_replicate.
Qed.

Lemma typed_set_fresh (src : Uint8Array) (m : nat) :
  typed_set (replicate (length src + m) 0) src 0 = Ok (src ++ replicate m 0).
Proof.
  pose proof (typed_set_zeros [] src (length src + m)) as H. simpl in H.
  rewrite H. destruct (Nat.ltb_spec (length src + m) (length src)); [lia |].
  do 3 f_equal. lia.
Qed.

Lemma reduce_length_concat (arr : list Uint8Array) :
  reduce_length arr = Z.of_nat (length (concat arr)).
Proof.
  unfold reduce_length.
  assert (forall acc, foldl (fun acc entry => acc + Z.of_nat (length entry)) acc arr
                      = acc + Z.of_nat (length (concat arr))) as H.
  { induction arr as [| e arr IH]; intros acc; simpl; [lia |].
    rewrite IH, length_app. lia. }
  by rewrite H.
Qed.

(** The copy loops fill the zero tail of [zipFile] entry after entry. *)
Lemma copy_all_zeros (entries : list Uint8Array) (pre : Uint8Array) (m : nat) :
  (length (concat entries) <= m)%nat ->
  copy_all (pre ++ replicate m 0) (length pre) entries =
  Ok (pre ++ concat entries ++ replicate (m - length (concat entries)) 0,
      (length pre + length (concat entries))%nat).
Proof.
  unfold copy_all. revert pre m.
  induction entries as [| e entries IH]; intros pre m Hm; simpl in *.
  - by rewrite Nat.sub_0_r, Nat.add_0_r.
  - rewrite length_app in Hm.
    rewrite typed_set_zeros.
    destruct (Nat.ltb_spec m (length e)); [lia |]. simpl.
    pose proof (IH (pre ++ e) (m - length e)%nat) as IH'.
    rewrite length_app in IH'. rewrite <- (assoc_L (++)) in IH'.
    rewrite IH' by lia. rewrite !length_app, <- !(assoc_L (++)).
    by rewrite Nat.sub_add_distr, Nat.add_assoc.
Qed.

End TypedArrays.

(** ** The loops of [File.zip] *)

Section Loops.

#[local] Arguments local_header : simpl never.
#[local] Arguments central_header : simpl never.
#[local] Arguments cd_object : simpl never.
#[local] Arguments TextEncoder_encode : simpl never.

Lemma local_header_length file : length (local_header file) = 32%nat.
Proof. done. Qed.

Lemma central_header_length file nameLength :
  length (central_header file nameLength) = 48%nat.
Proof. done. Qed.

(** One local entry: the header, the encoded name and the content, unless
    the encoded name is longer than the name, when [set] throws. *)
Lemma fileEntry_of_eq file :
  fileEntry_of file =
  if (length (zd_name file) <? length (TextEncoder_encode (zd_name file)))%nat
  then Throw RangeError
  else Ok (local_header file ++ TextEncoder_encode (zd_name file) ++ zd_content file).
Proof.
  unfold fileEntry_of.
  rewrite Uint8Array_new_plus, typed_set_fresh, bind_Ok, typed_set_zeros.
  pose proof (encode_length_ge (zd_name file)) as Hge.
  destruct (Nat.ltb_spec (length (zd_name file))
              (length (TextEncoder_encode (zd_name file)))) as [Hlt | Hle]; [done |].
  replace (length (zd_name file) - length (TextEncoder_encode (zd_name file)))%nat
    with 0%nat by lia.
  simpl replicate. rewrite (right_id_L [] (++)), bind_Ok.
  rewrite Uint8Array_new_plus, typed_set_fresh, bind_Ok.
  rewrite typed_set_zeros, Nat.ltb_irrefl, Nat.sub_diag, bind_Ok. simpl replicate.
  by rewrite (right_id_L [] (++)), <- (assoc_L (++)).
Qed.

Lemma cd_object_name file currentOffset :
  get (cd_object file currentOffset) "name" = JStr (zd_name file).
Proof. unfold get, cd_object. by simplify_map_eq. Qed.

(** The literal defines [offset], not [currentOffset]. *)
Lemma cd_object_currentOffset file currentOffset :
  get (cd_object file currentOffset) "currentOffset" = JUndefined.
Proof. unfold get, cd_object. by simplify_map_eq. Qed.

Lemma cd_object_offset file currentOffset :
  get (cd_object file currentOffset) "offset" = JNum currentOffset.
Proof. unfold get, cd_object. by simplify_map_eq. Qed.

(** One central entry, for an object the second loop built. *)
Lemma centralEntry_of_eq file currentOffset :
  centralEntry_of (cd_object file currentOffset) =
  if (length (zd_name file) <? length (TextEncoder_encode (zd_name file)))%nat
  then Throw RangeError
  else Ok (central_header (cd_object file currentOffset) (len (zd_name file))
             ++ TextEncoder_encode (zd_name file)).
Proof.
  unfold centralEntry_of. rewrite cd_object_name. simpl js_length.
  rewrite bind_Ok, Uint8Array_new_plus, typed_set_fresh, bind_Ok, typed_set_zeros.
  pose proof (encode_length_ge (zd_name file)) as Hge. simpl ToString.
  destruct (Nat.ltb_spec (length (zd_name file))
              (length (TextEncoder_encode (zd_name file)))) as [Hlt | Hle]; [done |].
  replace (length (zd_name file) - length (TextEncoder_encode (zd_name file)))%nat
    with 0%nat by lia.
  simpl replicate. by rewrite (right_id_L [] (++)), bind_Ok.
Qed.

Lemma ascii_fits (s : jsstring) :
  (length s <? length (TextEncoder_encode s))%nat = negb (is_ascii s).
Proof.
  destruct (is_ascii s) eqn:Hs; simpl.
  - rewrite encode_ascii by done. apply Nat.ltb_irrefl.
  - apply Nat.ltb_lt. by apply encode_length_gt.
Qed.

(** Third loop: all local entries, or the RangeError of the first name
    that is not ASCII. *)
Lemma zipArray_of_eq files :
  zipArray_of (zipData_of files) =
  if ascii_names files then Ok (local_entry_bytes <$> zipData_of files)
  else Throw RangeError.
Proof.
  unfold zipArray_of.
  induction files as [| f files IH]; [done |].
  simpl. rewrite fileEntry_of_eq. simpl zd_name. rewrite ascii_fits.
  destruct (is_ascii (name f)); simpl; [| done].
  rewrite IH. by destruct (ascii_names files).
Qed.

(** Fourth loop, reached only when the third did not throw. *)
Lemma centralDirectoryArray_of_eq files currentOffset :
  ascii_names files = true ->
  centralDirectoryArray_of (centralDirectory_from currentOffset (zipData_of files)) =
  Ok (central_entries_bytes currentOffset (zipData_of files)).
Proof.
  unfold centralDirectoryArray_of. revert currentOffset.
  induction files as [| f files IH]; intros currentOffset Hascii; [done |].
  simpl in Hascii. apply andb_true_iff in Hascii as [Hf Hfiles].
  simpl. rewrite centralEntry_of_eq. simpl zd_name. rewrite ascii_fits, Hf. simpl.
  by rewrite IH.
Qed.

(** The assembled archive: the three groups, one after the other. *)
Lemma assemble_eq (zipArray centralDirectoryArray : list Uint8Array)
    (endOfCentralDirectory : Uint8Array) :
  ('(zipFile, currentOffset) ←
     copy_all (Uint8Array_new
                 (plus (plus (JNum (reduce_length zipArray))
                             (JNum (reduce_length centralDirectoryArray)))
                       (len endOfCentralDirectory))) 0%nat zipArray;
   '(zipFile, currentOffset) ← copy_all zipFile currentOffset centralDirectoryArray;
   zipFile ← typed_set zipFile endOfCentralDirectory currentOffset;
   Ok zipFile) =
  Ok (concat zipArray ++ concat centralDirectoryArray ++ endOfCentralDirectory).
Proof.
  rewrite !reduce_length_concat.
  set (a := concat zipArray). set (b := concat centralDirectoryArray).
  set (c := endOfCentralDirectory).
  replace (Uint8Array_new _) with (replicate (length a + length b + length c) 0).
  2:{ unfold Uint8Array_new, plus, len. simpl.
      by rewrite <- !Nat2Z.inj_add, Nat2Z.id. }
  pose proof (copy_all_zeros zipArray [] (length a + length b + length c)) as H1.
  simpl in H1. rewrite H1 by (subst a; lia). clear H1. rewrite bind_Ok.
  fold a.
  replace (length a + length b + length c - length a)%nat
    with (length b + length c)%nat by lia.
  rewrite copy_all_zeros by (subst b; lia). rewrite bind_Ok. fold b.
  replace (length b + length c - length b)%nat with (length c) by lia.
  rewrite <- length_app, (assoc_L (++)), typed_set_zeros.
  rewrite Nat.ltb_irrefl, Nat.sub_diag, bind_Ok. simpl replicate.
  by rewrite (right_id_L [] (++)), <- (assoc_L (++)).
Qed.

(** [File.zip] up to the point where it builds the Blob. *)
Lemma zipFile_of_eq globals files :
  zipFile_of globals files =
  if ascii_names files then
    offset ← resolve globals "offset";
    Ok (archive_bytes offset files)
  else Throw RangeError.
Proof.
  unfold zipFile_of. rewrite zipArray_of_eq.
  destruct (ascii_names files) eqn:Hascii; [| done].
  rewrite bind_Ok. unfold centralDirectory_of.
  rewrite centralDirectoryArray_of_eq by done. rewrite bind_Ok.
  unfold endOfCentralDirectory_of.
  destruct (resolve globals "offset") as [offset | e]; [| done].
  rewrite !bind_Ok. apply assemble_eq.
Qed.

End Loops.

(** ** What a call of [File.zip] ends in *)

Section ZipCompletion.

(** The completion of [File.zip] depends on the names and on the binding
    of [offset] only. *)
Lemma zip_eq globals files zipFileName :
  zip globals files zipFileName =
  if ascii_names files then
    match globals !! "offset" with
    | Some offset =>
        let zipBlob := mkBlob (archive_bytes (JNum offset) files) "application/zip" in
        ([createElement "a"; createObjectURL zipBlob; click zipBlob zipFileName],
         Ok zipBlob)
    | None => ([], Throw (ReferenceError "offset"))
    end
  else ([], Throw RangeError).
Proof.
  unfold zip. rewrite zipFile_of_eq.
  destruct (ascii_names files); [| done].
  unfold resolve. by destruct (globals !! "offset").
Qed.

(** The name-length field of a local header is the length of the name
    modulo 256. *)
Lemma local_name_length_eq file :
  local_name_length (local_header file) = Z.of_nat (length (zd_name file)) mod 256.
Proof.
  unfold local_name_length, field, local_header, Uint8Array_from. simpl.
  unfold ToUint8. simpl. rewrite Z.mod_0_l by lia. lia.
Qed.

Lemma local_name_length_lt file :
  is_ascii (zd_name file) = false ->
  local_name_length (local_header file)
  < Z.of_nat (length (TextEncoder_encode (zd_name file))).
Proof.
  intros Hname. rewrite local_name_length_eq.
  pose proof (encode_length_gt _ Hname).
  pose proof (Z.mod_le (Z.of_nat (length (zd_name file))) 256).
  lia.
Qed.

End ZipCompletion.

(** ** The claims *)

(** C1. Round trip [File.unzip (File.zip E) = E].  On the one-entry archive
    of the spec's concrete scenario, in a page that has no global [offset],
    [File.zip] performs nothing and throws ReferenceError: there is no Blob
    to decode. *)
Theorem zip_hello_throws zipFileName :
  zip ∅ [hello] zipFileName = ([], Throw (ReferenceError "offset")).
Proof. by rewrite zip_eq. Qed.

(** C2, as stated, fails on a name outside ASCII: the call ends in a
    RangeError raised by [headerArray.set] in the local-header loop, before
    [offset] is ever evaluated. *)
Lemma zip_eacute_not_ReferenceError :
  (zip ∅ [eacute] (lit "a.zip")).2 = Throw RangeError
  /\ (zip ∅ [eacute] (lit "a.zip")).2 <> Throw (ReferenceError "offset").
Proof. by rewrite zip_eq. Qed.

(** C2, amended.  With [offset] unbound no call of [File.zip] returns a Blob
    or performs an effect: it throws ReferenceError on [offset] when every
    name is ASCII, and RangeError (from [set]) otherwise. *)
Theorem zip_never_returns globals files zipFileName :
  globals !! "offset" = None ->
  zip globals files zipFileName =
  ([], Throw (if ascii_names files then ReferenceError "offset" else RangeError)).
Proof.
  intros Hoffset. rewrite zip_eq, Hoffset. by destruct (ascii_names files).
Qed.

Lemma zip_never_returns_witness :
  zip ∅ [hello; eacute] (lit "a.zip") = ([], Throw RangeError)
  /\ zip ∅ [hello] (lit "a.zip") = ([], Throw (ReferenceError "offset")).
Proof.
  split.
  - apply (zip_never_returns ∅ [hello; eacute] (lit "a.zip")). reflexivity.
  - apply (zip_never_returns ∅ [hello] (lit "a.zip")). reflexivity.
Defined.

(** C8. [File.zip] on the empty list: the central-directory loops run over
    nothing, the end record evaluates [offset], and the call throws
    ReferenceError instead of returning a 22-byte archive. *)
Theorem zip_empty_throws zipFileName :
  zip ∅ [] zipFileName = ([], Throw (ReferenceError "offset")).
Proof. by rewrite zip_eq. Qed.

(** C10, as stated, fails on a name that is the letter e with an acute
    accent, alone or 256 times over.  The claim compares the name-length
    field with the name bytes emitted, and the third loop emits none: the
    encoded name does not fit the buffer sized by [name.length], [set]
    throws, and [File.zip] throws with it, also where [offset] is bound.
    For the second name the field is 0. *)
Lemma non_ascii_name_emits_nothing :
  fileEntry_of {| zd_name := [233]; zd_content := []; zd_contentLength := 0 |}
  = Throw RangeError
  /\ zip page_with_offset [eacute] (lit "a.zip") = ([], Throw RangeError)
  /\ local_name_length
       (local_header {| zd_name := replicate 256 233; zd_content := [];
                        zd_contentLength := 0 |}) = 0
  /\ fileEntry_of {| zd_name := replicate 256 233; zd_content := [];
                     zd_contentLength := 0 |}
     = Throw RangeError.
Proof. vm_compute. by repeat split. Qed.

(** C10, amended.  For an entry whose name has a code unit outside ASCII,
    the name-length field of the local header is the UTF-16 length of the
    name modulo 256, which is less than the number of bytes of the UTF-8
    encoding of the name; and the third loop emits nothing for the entry: it
    throws RangeError when it copies the encoded name. *)
Theorem non_ascii_name_declared_and_thrown (file : zipDatum) :
  is_ascii (zd_name file) = false ->
  local_name_length (local_header file) = Z.of_nat (length (zd_name file)) mod 256
  /\ local_name_length (local_header file)
     < Z.of_nat (length (TextEncoder_encode (zd_name file)))
  /\ fileEntry_of file = Throw RangeError.
Proof.
  intros Hname. split; [apply local_name_length_eq |].
  split; [by apply local_name_length_lt |].
  rewrite fileEntry_of_eq. pose proof (encode_length_gt _ Hname) as Hgt.
  by destruct (Nat.ltb_spec (length (zd_name file))
                 (length (TextEncoder_encode (zd_name file)))); [| lia].
Qed.

Lemma non_ascii_name_declared_and_thrown_witness :
  local_name_length (local_header {| zd_name := [233]; zd_content := []; zd_contentLength := 0 |})
  = 1 mod 256
  /\ local_name_length
       (local_header {| zd_name := [233]; zd_content := []; zd_contentLength := 0 |})
     < Z.of_nat (length (TextEncoder_encode [233]))
  /\ fileEntry_of {| zd_name := [233]; zd_content := []; zd_contentLength := 0 |}
     = Throw RangeError.
Proof.
  apply (non_ascii_name_declared_and_thrown
           {| zd_name := [233]; zd_content := []; zd_contentLength := 0 |}).
  reflexivity.
Defined.

(** C3, as stated, fails on [hello]: the local entry declares CRC-32 zero and
    both sizes zero, while the content has 8 bytes and CRC-32 1AD514BA. *)
Lemma local_header_hello_zero_fields :
  match zipArray_of (zipData_of [hello]) with
  | Ok [entry] =>
      local_compressed_size entry = 0
      /\ local_uncompressed_size entry = 0
      /\ length (TextEncoder_encode (content hello)) = 8%nat
      /\ local_crc32 entry = 0
      /\ crc32 (TextEncoder_encode (content hello)) = 450172090
  | _ => False
  end.
Proof. vm_compute. by repeat split. Qed.

(** C3, amended.  For entries with ASCII names the third loop builds, in
    input order, one local entry per file: a 32-byte header, which is the
    signature 50 4B 03 04, the byte 10, twenty-five zero bytes and the name
    length modulo 256 in two bytes, so that its CRC-32, compressed-size and
    uncompressed-size fields are zero; then the name bytes; then the content
    bytes. *)
Theorem local_entries_layout (files : list file) :
  ascii_names files = true ->
  exists zipArray,
    zipArray_of (zipData_of files) = Ok zipArray
    /\ Forall2 (fun f entry =>
         exists header,
           entry = header ++ TextEncoder_encode (name f) ++ TextEncoder_encode (content f)
           /\ header = [80; 75; 3; 4; 10] ++ replicate 25 0
                       ++ [Z.of_nat (length (name f)) mod 256; 0]
           /\ local_signature header = 67324752
           /\ local_crc32 header = 0
           /\ local_compressed_size header = 0
           /\ local_uncompressed_size header = 0
           /\ local_name_length header = Z.of_nat (length (name f)) mod 256)
         files zipArray.
Proof.
  intros Hascii. rewrite zipArray_of_eq, Hascii.
  eexists; split; [done |]. clear Hascii.
  induction files as [| f files IH]; [constructor |].
  simpl. constructor; [| exact IH].
  exists (local_header {| zd_name := name f;
                          zd_content := TextEncoder_encode (content f);
                          zd_contentLength :=
                            Z.of_nat (length (TextEncoder_encode (content f))) |}).
  split; [reflexivity |].
  repeat split; try reflexivity.
  apply local_name_length_eq.
Qed.

Lemma local_entries_layout_witness :
  exists zipArray,
    zipArray_of (zipData_of two_files) = Ok zipArray
    /\ Forall2 (fun f entry =>
         exists header,
           entry = header ++ TextEncoder_encode (name f) ++ TextEncoder_encode (content f)
           /\ header = [80; 75; 3; 4; 10] ++ replicate 25 0
                       ++ [Z.of_nat (length (name f)) mod 256; 0]
           /\ local_signature header = 67324752
           /\ local_crc32 header = 0
           /\ local_compressed_size header = 0
           /\ local_uncompressed_size header = 0
           /\ local_name_length header = Z.of_nat (length (name f)) mod 256)
         two_files zipArray.
Proof. apply (local_entries_layout two_files). reflexivity. Defined.

(** C4. On two files the second local entry begins at byte 42 of the
    archive, while both central records carry offset 0: the header reads
    [file.currentOffset], a property the central-directory objects do not
    have, and the [offset] they do have (5 for the second) counts content
    bytes only. *)
Theorem central_offset_second_entry :
  match zipArray_of (zipData_of two_files),
        centralDirectoryArray_of (centralDirectory_of (zipData_of two_files)) with
  | Ok zipArray, Ok centralDirectoryArray =>
      starts_from 0 zipArray = [0; 42]%nat
      /\ central_local_offset <$> centralDirectoryArray = [0; 0]
      /\ central_local_offset_zip <$> centralDirectoryArray = [0; 0]
      /\ (fun o => get o "offset") <$> centralDirectory_of (zipData_of two_files)
         = [JNum 0; JNum 5]
      /\ local_signature (drop 42 (concat zipArray)) = 67324752
  | _, _ => False
  end.
Proof. vm_compute. by repeat split. Qed.

(** ** The event loop of [File.unzip] *)

Section EventLoop.

Lemma run_jobs_snoc m order j :
  run_jobs m (order ++ [j]) = run_job (run_jobs m order) j.
Proof. unfold run_jobs. apply foldl_snoc. Qed.

(** The array only grows, by what the fulfilled entries push. *)
Lemma run_jobs_extractedFiles m order :
  extractedFiles (run_jobs m order) = extractedFiles m ++ omap pushed order.
Proof.
  induction order as [| j order IH] using rev_ind.
  - simpl. by rewrite (right_id_L [] (++)).
  - rewrite run_jobs_snoc, omap_app, (assoc_L (++)), <- IH.
    destruct j as [n [c | e] |]; simpl; by rewrite ?(right_id_L [] (++)).
Qed.

(** A settled promise stays as it is. *)
Lemma run_jobs_rejected m order reason :
  promise m = Rejected reason -> promise (run_jobs m order) = Rejected reason.
Proof.
  induction order as [| j order IH] using rev_ind; [done |].
  intros Hm. rewrite run_jobs_snoc. specialize (IH Hm).
  destruct j as [n [c | e] |]; simpl; by rewrite ?IH.
Qed.

(** A pending promise is fulfilled by [all_settled] and by nothing else. *)
Lemma run_jobs_pending m order :
  promise m = Pending ->
  promise (run_jobs m order) = if bool_decide (all_settled ∈ order) then Fulfilled else Pending.
Proof.
  intros Hm. induction order as [| j order IH] using rev_ind; [done |].
  rewrite run_jobs_snoc.
  assert (forall j', j' <> all_settled ->
            bool_decide (all_settled ∈ order ++ [j']) = bool_decide (all_settled ∈ order))
    as Hother.
  { intros j' Hj. apply bool_decide_ext.
    rewrite elem_of_app, list_elem_of_singleton. intuition congruence. }
  destruct j as [n [c | e] |]; simpl; rewrite ?IH.
  - by rewrite Hother.
  - by rewrite Hother.
  - rewrite (bool_decide_eq_true_2 (all_settled ∈ order ++ [all_settled])).
    + by case_bool_decide.
    + rewrite elem_of_app, list_elem_of_singleton. by right.
Qed.

(** The jobs never reject the promise: it is rejected after them when it
    was before them. *)
Lemma run_jobs_rejected_iff m order reason :
  promise m <> Fulfilled ->
  promise (run_jobs m order) = Rejected reason <-> promise m = Rejected reason.
Proof.
  intros Hm. destruct (promise m) as [| | reason'] eqn:Hp; [| done |].
  - rewrite (run_jobs_pending _ _ Hp). by case_bool_decide.
  - by rewrite (run_jobs_rejected _ _ _ Hp).
Qed.

(** The callback of [forEach] throws when [zipFiles.file] answers [null]
    for one of the entries, and only then. *)
Lemma forEach_register_thrown zipFiles entries err :
  (forEach_register zipFiles entries).2 = Some err <->
  Exists (fun zipEntry => file_of zipFiles (zo_name zipEntry) = None) entries
  /\ err = TypeError "null (reading 'async')".
Proof.
  induction entries as [| zipEntry rest IH]; simpl.
  - split; [done | intros [H%Exists_nil _]; done].
  - rewrite Exists_cons. destruct (file_of zipFiles (zo_name zipEntry)) as [o |] eqn:Ho.
    + destruct (forEach_register zipFiles rest) as [jobs thrown]. simpl in *.
      rewrite IH. intuition congruence.
    + simpl. split; [intros [= <-]; auto | intros [_ ->]; done].
Qed.

(** Before any job runs the promise is pending or rejected with a plain
    [Error], and the array is empty. *)
Lemma unzip_start_cases h zipBlob :
  extractedFiles (unzip_start h zipBlob).1 = []
  /\ (promise (unzip_start h zipBlob).1 = Pending
      \/ promise (unzip_start h zipBlob).1 = Rejected (Error "Error reading zip file.")
      \/ exists err, promise (unzip_start h zipBlob).1
                     = Rejected (Error ("Failed to unzip the file: " +:+ message err))).
Proof.
  unfold unzip_start, onload.
  destruct (readAsArrayBuffer h zipBlob) as [arrayBuffer |]; [| simpl; auto].
  destruct (JSZip h) as [loadAsync |]; [| simpl; auto].
  destruct (loadAsync arrayBuffer) as [zipFiles | err]; [| simpl; eauto].
  destruct (forEach_register zipFiles zipFiles) as [jobs [err |]]; simpl; eauto.
Qed.

Lemma unzip_start_not_fulfilled h zipBlob : promise (unzip_start h zipBlob).1 <> Fulfilled.
Proof.
  destruct (unzip_start_cases h zipBlob) as [_ [Hp | [Hp | [err Hp]]]]; by rewrite Hp.
Qed.

End EventLoop.

(** C5, as stated, fails on the archive [File.zip] assembles for [hello],
    before and after one bit of its content is changed.  The header
    declares CRC-32 zero for a content of CRC-32 1AD514BA on the one hand
    and for the changed content on the other.  On both buffers [JSZip]
    stops at the end record, whose size and offset fields point 65488 bytes
    past it, and the promise is rejected with a plain [Error] that names no
    entry and no checksum, whatever the rest of the library does. *)
Lemma unzip_crc_mismatch_unreported :
  local_crc32 (blob_bytes hello_blob) <> crc32 (TextEncoder_encode (content hello))
  /\ local_crc32 (blob_bytes flipped_blob)
     <> crc32 (take 8 (drop 41 (blob_bytes flipped_blob)))
  /\ (forall further,
        promise (unzip (jszip_page further) hello_blob
                   (unzip_jobs (jszip_page further) hello_blob))
        = Rejected (Error "Failed to unzip the file: Corrupted zip: missing 65488 bytes.")
        /\ promise (unzip (jszip_page further) flipped_blob
                      (unzip_jobs (jszip_page further) flipped_blob))
           = Rejected (Error "Failed to unzip the file: Corrupted zip: missing 65488 bytes."))
  /\ class_name (Error "Failed to unzip the file: Corrupted zip: missing 65488 bytes.")
     <> "ArchiveIntegrityError".
Proof.
  split; [by vm_compute |]. split; [by vm_compute |]. split; [| by vm_compute].
  intros further. split; vm_compute; reflexivity.
Qed.

(** C5, amended.  [File.unzip] checks no CRC itself.  In whatever order the
    event loop runs the jobs, its promise is rejected in three cases and in
    no other, each time with a plain [Error]: "Error reading zip file." when
    the reader fails; "Failed to unzip the file: " followed by the message
    of the error when [loadAsync] rejects with one; and the same words
    followed by the message of the TypeError that the callback of
    [forEach] throws itself when [zipFiles.file(zipEntry.name)] is [null]
    for a listed entry. *)
Theorem unzip_rejects_with_plain_Error h zipBlob order reason :
  promise (unzip h zipBlob order) = Rejected reason <->
  class_name reason = "Error"
  /\ (readAsArrayBuffer h zipBlob = None /\ reason = Error "Error reading zip file."
      \/ exists arrayBuffer loadAsync,
           readAsArrayBuffer h zipBlob = Some arrayBuffer
           /\ JSZip h = Some loadAsync
           /\ ((exists err,
                   loadAsync arrayBuffer = Throw err
                   /\ reason = Error ("Failed to unzip the file: " +:+ message err))
               \/ (exists zipFiles,
                     loadAsync arrayBuffer = Ok zipFiles
                     /\ Exists (fun zipEntry => file_of zipFiles (zo_name zipEntry) = None)
                               zipFiles
                     /\ reason = Error ("Failed to unzip the file: "
                                        +:+ message (TypeError "null (reading 'async')"))))).
Proof.
  unfold unzip. rewrite run_jobs_rejected_iff by apply unzip_start_not_fulfilled.
  unfold unzip_start, onload.
  destruct (readAsArrayBuffer h zipBlob) as [arrayBuffer |]; simpl.
  - destruct (JSZip h) as [loadAsync |]; simpl.
    + destruct (loadAsync arrayBuffer) as [zipFiles | err] eqn:Hload; simpl.
      * destruct (forEach_register zipFiles zipFiles) as [jobs [err |]] eqn:Hreg; simpl.
        -- assert ((forEach_register zipFiles zipFiles).2 = Some err) as Herr
             by (by rewrite Hreg).
           apply forEach_register_thrown in Herr as [Hnull ->]. split.
           ++ intros [= <-]. split; [done |]. right.
              exists arrayBuffer, loadAsync. repeat split; [done.. |]. right.
              by exists zipFiles.
           ++ intros [_ [[? _] | (? & ? & [= <-] & [= <-] & Hcase)]]; [done |].
              destruct Hcase as [(? & ? & _) | (? & _ & _ & ->)]; [congruence | done].
        -- split; [done |].
           intros [_ [[? _] | (? & ? & [= <-] & [= <-] & Hcase)]]; [done |].
           destruct Hcase as [(? & ? & _) | (zipFiles' & Hfiles & Hnull & _)];
             [congruence |].
           assert (zipFiles' = zipFiles) as -> by congruence.
           assert ((forEach_register zipFiles zipFiles).2
                   = Some (TypeError "null (reading 'async')")) as Herr
             by (by apply forEach_register_thrown).
           rewrite Hreg in Herr. done.
      * split.
        -- intros [= <-]. split; [done |]. right.
           exists arrayBuffer, loadAsync. repeat split; [done.. |]. left. by exists err.
        -- intros [_ [[? _] | (? & ? & [= <-] & [= <-] & Hcase)]]; [done |].
           destruct Hcase as [(err' & Herr & ->) | (? & ? & _)]; [| congruence].
           by assert (err' = err) as -> by congruence.
    + split; [done |].
      intros [_ [[? _] | (? & ? & _ & ? & _)]]; done.
  - split.
    + intros [= <-]. split; [done |]. by left.
    + intros [_ [[_ ->] | (? & ? & ? & _)]]; done.
Qed.

Lemma unzip_rejects_with_plain_Error_witness :
  promise (unzip (jszip_page (fun _ => Ok [])) hello_blob [])
  = Rejected (Error "Failed to unzip the file: Corrupted zip: missing 65488 bytes.").
Proof.
  apply (unzip_rejects_with_plain_Error (jszip_page (fun _ => Ok [])) hello_blob []).
  split; [reflexivity |]. right.
  exists (blob_bytes hello_blob), (JSZip_loadAsync (fun _ => Ok [])).
  split; [reflexivity |]. split; [reflexivity |]. left.
  exists (Error "Corrupted zip: missing 65488 bytes."). split; vm_compute; reflexivity.
Defined.

(** C6. Where the extraction of one entry fails, the call does not fail: in
    every order in which the event loop can run the queued jobs the promise
    is fulfilled, and the array the caller holds ends up with the other
    entry alone. *)
Theorem unzip_partial_list (zipBlob : Blob) (order : list job) :
  order ≡ₚ unzip_jobs half_broken_page zipBlob ->
  promise (unzip half_broken_page zipBlob order) = Fulfilled
  /\ received (unzip half_broken_page zipBlob order)
     = Some [ {| name := lit "a.txt"; content := lit "A" |} ].
Proof.
  intros Horder. unfold received, unzip.
  assert (promise (run_jobs (unzip_start half_broken_page zipBlob).1 order) = Fulfilled)
    as ->.
  { rewrite run_jobs_pending by done.
    rewrite bool_decide_eq_true_2; [done |].
    rewrite Horder. apply list_elem_of_In. vm_compute. tauto. }
  split; [done |]. f_equal.
  rewrite run_jobs_extractedFiles. simpl.
  apply Permutation_singleton_r. by rewrite Horder.
Qed.

Lemma unzip_partial_list_witness :
  promise (unzip half_broken_page hello_blob (unzip_jobs half_broken_page hello_blob))
  = Fulfilled
  /\ received (unzip half_broken_page hello_blob (unzip_jobs half_broken_page hello_blob))
     = Some [ {| name := lit "a.txt"; content := lit "A" |} ].
Proof.
  apply (unzip_partial_list hello_blob (unzip_jobs half_broken_page hello_blob)).
  reflexivity.
Defined.

(** C7, as stated, fails on an entry with an empty name: nothing inspects
    the name.  In a page without [offset] the call ends like any other, in a
    ReferenceError; in a page that binds [offset] it returns a Blob. *)
Lemma zip_unnamed_accepted :
  (zip ∅ [unnamed] (lit "a.zip")).2 = Throw (ReferenceError "offset")
  /\ class_name (ReferenceError "offset") <> "ArchiveEncodingError"
  /\ (zip page_with_offset [unnamed] (lit "a.zip")).2
     = Ok (mkBlob (archive_bytes (JNum 0) [unnamed]) "application/zip").
Proof. rewrite !zip_eq. by repeat split. Qed.

(** C7, amended.  [File.zip] validates neither names nor sizes.  Its
    completion is decided by two things only: a RangeError when some name
    has a code unit outside ASCII, otherwise a ReferenceError when the page
    has no [offset], otherwise the Blob; an empty or very long ASCII name
    changes nothing. *)
Theorem zip_completion globals files zipFileName :
  (zip globals files zipFileName).2 =
  if ascii_names files then
    match globals !! "offset" with
    | Some offset => Ok (mkBlob (archive_bytes (JNum offset) files) "application/zip")
    | None => Throw (ReferenceError "offset")
    end
  else Throw RangeError.
Proof.
  rewrite zip_eq. destruct (ascii_names files); [| done].
  by destruct (globals !! "offset").
Qed.

(** C9, as stated, fails both ways on the empty list: in a page without
    [offset] the call returns no bytes, and in a page that binds [offset] it
    clicks a download link for the Blob before returning it. *)
Lemma zip_clicks_download_link :
  (zip ∅ [] (lit "a.zip")).2 = Throw (ReferenceError "offset")
  /\ (zip page_with_offset [] (lit "a.zip")).1
     = let zipBlob := mkBlob [80; 75; 5; 6; 0; 0; 0; 0; 0; 0; 0; 0;
                              0; 0; 0; 0; 0; 0; 0; 0; 0; 0] "application/zip" in
       [createElement "a"; createObjectURL zipBlob; click zipBlob (lit "a.zip")].
Proof. by vm_compute. Qed.

(** C9, amended.  [File.zip] has an effect exactly when it returns: with
    ASCII names, in a page that binds [offset], it creates an anchor, creates
    an object URL for the Blob it is about to return and clicks the anchor
    with [zipFileName] as download name; a call that throws has performed no
    effect. *)
Theorem zip_effects globals files zipFileName :
  (zip globals files zipFileName).1 =
  if ascii_names files then
    match globals !! "offset" with
    | Some offset =>
        let zipBlob := mkBlob (archive_bytes (JNum offset) files) "application/zip" in
        [createElement "a"; createObjectURL zipBlob; click zipBlob zipFileName]
    | None => []
    end
  else [].
Proof.
  rewrite zip_eq. destruct (ascii_names files); [| done].
  by destruct (globals !! "offset").
Qed.

(** ** More on the archive [File.zip] assembles *)

Section Archive.

#[local] Arguments local_header : simpl never.
#[local] Arguments central_header : simpl never.
#[local] Arguments cd_object : simpl never.
#[local] Arguments TextEncoder_encode : simpl never.
#[local] Arguments endOfCentralDirectory_literal : simpl never.

Lemma zipData_of_cons f files :
  zipData_of (f :: files)
  = {| zd_name := name f;
       zd_content := TextEncoder_encode (content f);
       zd_contentLength := Z.of_nat (length (TextEncoder_encode (content f))) |}
    :: zipData_of files.
Proof. done. Qed.

Lemma ascii_names_cons f files :
  ascii_names (f :: files) = true <-> is_ascii (name f) = true /\ ascii_names files = true.
Proof. apply andb_true_iff. Qed.

Lemma sum_list_fmap_cons {A} (g : A -> nat) x l :
  sum_list (g <$> x :: l) = (g x + sum_list (g <$> l))%nat.
Proof. done. Qed.

Lemma local_entries_length files :
  ascii_names files = true ->
  length (concat (local_entry_bytes <$> zipData_of files))
  = sum_list (local_entry_size <$> files).
Proof.
  induction files as [| f files IH]; [done |].
  intros [Hf Hfiles]%ascii_names_cons.
  rewrite zipData_of_cons, fmap_cons, concat_cons, length_app, IH by done.
  rewrite sum_list_fmap_cons. f_equal.
  unfold local_entry_bytes, local_entry_size.
  rewrite !length_app, local_header_length. cbn [zd_name zd_content].
  rewrite encode_ascii by done. lia.
Qed.

Lemma central_entries_bytes_cons currentOffset file rest :
  central_entries_bytes currentOffset (file :: rest)
  = (central_header (cd_object file currentOffset) (len (zd_name file))
       ++ TextEncoder_encode (zd_name file))
    :: central_entries_bytes (currentOffset + zd_contentLength file) rest.
Proof. done. Qed.

Lemma central_entries_length files currentOffset :
  ascii_names files = true ->
  length (concat (central_entries_bytes currentOffset (zipData_of files)))
  = sum_list (central_entry_size <$> files).
Proof.
  revert currentOffset.
  induction files as [| f files IH]; intros currentOffset; [done |].
  intros [Hf Hfiles]%ascii_names_cons.
  rewrite zipData_of_cons, central_entries_bytes_cons, concat_cons, length_app, IH by done.
  rewrite sum_list_fmap_cons. f_equal.
  unfold central_entry_size.
  rewrite length_app, central_header_length. cbn [zd_name].
  by rewrite encode_ascii.
Qed.

Lemma endOfCentralDirectory_literal_length offset cda :
  length (endOfCentralDirectory_literal offset cda) = 22%nat.
Proof. done. Qed.

End Archive.

(** X1. When [File.zip] returns (ASCII names, [offset] bound) the archive
    has 22 bytes for the end record plus, for every file, a 32-byte local
    header, a 48-byte central header, the name twice and the content once. *)
Theorem zip_archive_size globals files zipFileName offset :
  ascii_names files = true ->
  globals !! "offset" = Some offset ->
  exists zipFile,
    (zip globals files zipFileName).2 = Ok (mkBlob zipFile "application/zip")
    /\ length zipFile
       = (sum_list (local_entry_size <$> files)
          + sum_list (central_entry_size <$> files) + 22)%nat.
Proof.
  intros Hascii Hoffset. rewrite zip_eq, Hascii, Hoffset.
  eexists; split; [reflexivity |].
  unfold archive_bytes.
  rewrite !length_app, local_entries_length, central_entries_length by done.
  rewrite endOfCentralDirectory_literal_length. lia.
Qed.

Lemma zip_archive_size_witness :
  exists zipFile,
    (zip page_with_offset two_files (lit "a.zip")).2 = Ok (mkBlob zipFile "application/zip")
    /\ length zipFile
       = (sum_list (local_entry_size <$> two_files)
          + sum_list (central_entry_size <$> two_files) + 22)%nat.
Proof.
  apply (zip_archive_size page_with_offset two_files (lit "a.zip") 0); reflexivity.
Defined.

(** X2. The archive [File.zip] returns starts with the local-file-header
    signature when there is at least one file, and its last 22 bytes are the
    end record, which starts with the end-of-central-directory signature. *)
Theorem zip_archive_frame globals files zipFileName offset :
  ascii_names files = true ->
  globals !! "offset" = Some offset ->
  exists zipFile,
    (zip globals files zipFileName).2 = Ok (mkBlob zipFile "application/zip")
    /\ (files <> [] -> take 4 zipFile = [80; 75; 3; 4])
    /\ drop (length zipFile - 22) zipFile
       = endOfCentralDirectory_literal (JNum offset)
           (central_entries_bytes 0 (zipData_of files))
    /\ take 4 (drop (length zipFile - 22) zipFile) = [80; 75; 5; 6].
Proof.
  intros Hascii Hoffset. rewrite zip_eq, Hascii, Hoffset.
  eexists; split; [reflexivity |].
  assert (drop (length (archive_bytes (JNum offset) files) - 22)
            (archive_bytes (JNum offset) files)
          = endOfCentralDirectory_literal (JNum offset)
              (central_entries_bytes 0 (zipData_of files))) as Hend.
  { unfold archive_bytes. rewrite (assoc_L (++)).
    rewrite length_app, endOfCentralDirectory_literal_length.
    rewrite Nat.add_sub. apply drop_app_length. }
  split; [| split; [exact Hend | by rewrite Hend]].
  intros Hfiles. destruct files as [| f files]; [done |].
  unfold archive_bytes. by rewrite zipData_of_cons.
Qed.

Lemma zip_archive_frame_witness :
  exists zipFile,
    (zip page_with_offset [hello] (lit "a.zip")).2 = Ok (mkBlob zipFile "application/zip")
    /\ ([hello] <> [] -> take 4 zipFile = [80; 75; 3; 4])
    /\ drop (length zipFile - 22) zipFile
       = endOfCentralDirectory_literal (JNum 0)
           (central_entries_bytes 0 (zipData_of [hello]))
    /\ take 4 (drop (length zipFile - 22) zipFile) = [80; 75; 5; 6].
Proof.
  apply (zip_archive_frame page_with_offset [hello] (lit "a.zip") 0); reflexivity.
Defined.

Section Int32.

Lemma wrap32_mod_256 z : wrap32 z mod 256 = z mod 256.
Proof. unfold wrap32. Z.div_mod_to_equations. lia. Qed.

Lemma wrap32_div_256 z : (wrap32 z / 256) mod 256 = (z / 256) mod 256.
Proof. unfold wrap32. Z.div_mod_to_equations. lia. Qed.

Lemma band_255 (v : Z) : band (JNum v) 255 = v mod 256.
Proof.
  unfold band, ToInt32. simpl ToNumber. cbv iota beta.
  change (wrap32 255) with (Z.ones 8).
  by rewrite Z.land_ones, wrap32_mod_256.
Qed.

Lemma band_all_ones (v : Z) : band (JNum v) 4294967295 = wrap32 v.
Proof.
  unfold band, ToInt32. simpl ToNumber. cbv iota beta.
  change (wrap32 4294967295) with (-1). apply Z.land_m1_r.
Qed.

Lemma shr_8 (v : Z) : shr (JNum v) 8 = wrap32 v / 256.
Proof.
  unfold shr, ToInt32. simpl ToNumber. cbv iota beta.
  change (wrap32 8 mod 32) with 8. by rewrite Z.shiftr_div_pow2.
Qed.

End Int32.

Lemma central_entries_bytes_length currentOffset zipData :
  length (central_entries_bytes currentOffset zipData) = length zipData.
Proof.
  revert currentOffset. induction zipData as [| file rest IH]; intros currentOffset; [done |].
  rewrite central_entries_bytes_cons. simpl. by rewrite IH.
Qed.

Lemma zipData_of_length files : length (zipData_of files) = length files.
Proof. unfold zipData_of. apply length_map. Qed.

(** X3. In the end record the entry count, the size of the central
    directory and the value of [offset] are each kept modulo 65536, in the
    two bytes the literal gives them (12-13 and 14-15, 16-17, 18-19).  The
    bytes 8-11, where the ZIP layout keeps the two entry counts, are zero
    whatever the number of files. *)
Theorem end_record_fields (offset : Z) (files : list file) :
  let record := endOfCentralDirectory_literal (JNum offset)
                  (central_entries_bytes 0 (zipData_of files)) in
  field record 12 2 = Z.of_nat (length files) mod 65536
  /\ field record 14 2 = Z.of_nat (length files) mod 65536
  /\ field record 16 2
     = Z.of_nat (length (concat (central_entries_bytes 0 (zipData_of files)))) mod 65536
  /\ field record 18 2 = offset mod 65536
  /\ field record 8 2 = 0
  /\ field record 10 2 = 0.
Proof.
  intros record. subst record.
  unfold endOfCentralDirectory_literal, field, Uint8Array_from.
  rewrite reduce_length_concat.
  set (size := Z.of_nat (length (concat (central_entries_bytes 0 (zipData_of files))))).
  unfold len. rewrite central_entries_bytes_length, zipData_of_length.
  set (count := Z.of_nat (length files)).
  cbn [fmap list_fmap app map take drop foldr].
  unfold ToUint8. cbn [ToNumber].
  rewrite !band_all_ones, !shr_8, !band_255.
  clearbody size count.
  repeat split; unfold wrap32; Z.div_mod_to_equations; lia.
Qed.

Section CentralDirectory.

#[local] Arguments TextEncoder_encode : simpl never.

Lemma central_header_offset_zero file currentOffset nameLength entryName :
  central_local_offset
    (central_header (cd_object file currentOffset) nameLength ++ entryName) = 0
  /\ central_local_offset_zip
       (central_header (cd_object file currentOffset) nameLength ++ entryName) = 0.
Proof.
  unfold central_local_offset, central_local_offset_zip, central_header.
  rewrite cd_object_currentOffset. done.
Qed.

Lemma central_entries_offset_zero currentOffset zipData :
  Forall (fun c => central_local_offset c = 0 /\ central_local_offset_zip c = 0)
         (central_entries_bytes currentOffset zipData).
Proof.
  revert currentOffset. induction zipData as [| file rest IH]; intros currentOffset.
  - constructor.
  - rewrite central_entries_bytes_cons. constructor; [| apply IH].
    apply central_header_offset_zero.
Qed.

Lemma recorded_offsets currentOffset zipData :
  (fun o => get o "offset") <$> centralDirectory_from currentOffset zipData
  = JNum <$> running_totals currentOffset (zd_contentLength <$> zipData).
Proof.
  revert currentOffset. induction zipData as [| file rest IH]; intros currentOffset; [done |].
  cbn [centralDirectory_from running_totals fmap list_fmap].
  rewrite cd_object_offset. f_equal. apply IH.
Qed.

Lemma true_starts currentOffset (zipArray : list Uint8Array) :
  Z.of_nat <$> starts_from currentOffset zipArray
  = running_totals (Z.of_nat currentOffset) ((fun e => Z.of_nat (length e)) <$> zipArray).
Proof.
  revert currentOffset. induction zipArray as [| e rest IH]; intros currentOffset; [done |].
  cbn [starts_from running_totals fmap list_fmap]. f_equal.
  rewrite <- Nat2Z.inj_add. apply IH.
Qed.

Lemma running_totals_lt_from (steps1 steps2 : list Z) (start1 start2 : Z) i x y :
  Forall2 Z.lt steps1 steps2 ->
  start1 < start2 ->
  running_totals start1 steps1 !! i = Some x ->
  running_totals start2 steps2 !! i = Some y ->
  x < y.
Proof.
  intros Hsteps. revert start1 start2 i.
  induction Hsteps as [| d1 d2 rest1 rest2 Hd Hrest IH]; intros start1 start2 i Hstart; [done |].
  destruct i as [| i]; simpl.
  - intros [= <-] [= <-]. done.
  - apply IH. lia.
Qed.

Lemma running_totals_lt (steps1 steps2 : list Z) (start : Z) i x y :
  Forall2 Z.lt steps1 steps2 ->
  running_totals start steps1 !! S i = Some x ->
  running_totals start steps2 !! S i = Some y ->
  x < y.
Proof.
  intros Hsteps. destruct Hsteps as [| d1 d2 rest1 rest2 Hd Hrest]; [done |].
  simpl. apply running_totals_lt_from; [done | lia].
Qed.

End CentralDirectory.

(** X4. For every list of files with ASCII names the fourth loop builds one
    central record per file, and every one of them carries 0 as the offset
    of its local header, at the two bytes the literal writes (46-47) and at
    the four bytes of the ZIP layout (42-45) alike. *)
Theorem central_records_offset_zero (files : list file) :
  ascii_names files = true ->
  exists centralDirectoryArray,
    centralDirectoryArray_of (centralDirectory_of (zipData_of files))
    = Ok centralDirectoryArray
    /\ length centralDirectoryArray = length files
    /\ Forall (fun c => central_local_offset c = 0 /\ central_local_offset_zip c = 0)
              centralDirectoryArray.
Proof.
  intros Hascii. unfold centralDirectory_of.
  rewrite centralDirectoryArray_of_eq by done.
  eexists; split; [reflexivity |]. split.
  - by rewrite central_entries_bytes_length, zipData_of_length.
  - apply central_entries_offset_zero.
Qed.

Lemma central_records_offset_zero_witness :
  exists centralDirectoryArray,
    centralDirectoryArray_of (centralDirectory_of (zipData_of two_files))
    = Ok centralDirectoryArray
    /\ length centralDirectoryArray = length two_files
    /\ Forall (fun c => central_local_offset c = 0 /\ central_local_offset_zip c = 0)
              centralDirectoryArray.
Proof. apply (central_records_offset_zero two_files). reflexivity. Defined.

(** X5. The offset the second loop records for a file is the number of
    content bytes of the files before it, while the local entry of that file
    begins after the whole entries before it (32 header bytes, name and
    content each); from the second file on the recorded offset is strictly
    smaller than the byte at which the entry begins. *)
Theorem recorded_and_true_offsets (files : list file) :
  ascii_names files = true ->
  let recorded := running_totals 0
        ((fun f => Z.of_nat (length (TextEncoder_encode (content f)))) <$> files) in
  let true_start := running_totals 0 ((fun f => Z.of_nat (local_entry_size f)) <$> files) in
  (fun o => get o "offset") <$> centralDirectory_of (zipData_of files) = JNum <$> recorded
  /\ (exists zipArray,
        zipArray_of (zipData_of files) = Ok zipArray
        /\ Z.of_nat <$> starts_from 0 zipArray = true_start)
  /\ (forall i x y, recorded !! S i = Some x -> true_start !! S i = Some y -> x < y).
Proof.
  intros Hascii recorded true_start. subst recorded true_start. split; [| split].
  - unfold centralDirectory_of. rewrite recorded_offsets. f_equal. f_equal.
    unfold zipData_of. rewrite <- list_fmap_compose. done.
  - rewrite zipArray_of_eq, Hascii. eexists; split; [reflexivity |].
    rewrite true_starts. f_equal.
    unfold zipData_of. rewrite <- !list_fmap_compose.
    clear -Hascii. induction files as [| f files IH]; [done |].
    apply ascii_names_cons in Hascii as [Hf Hfiles].
    rewrite !fmap_cons, IH by done. f_equal.
    unfold compose, local_entry_bytes, local_entry_size. cbn [zd_name zd_content].
    rewrite !length_app, local_header_length, encode_ascii by done. lia.
  - intros i x y. apply running_totals_lt.
    apply Forall2_fmap, Forall_Forall2_diag, Forall_forall.
    intros f _. unfold local_entry_size. lia.
Qed.

Lemma recorded_and_true_offsets_witness :
  (fun o => get o "offset") <$> centralDirectory_of (zipData_of two_files)
  = JNum <$> [0; 5]
  /\ (exists zipArray,
        zipArray_of (zipData_of two_files) = Ok zipArray
        /\ Z.of_nat <$> starts_from 0 zipArray = [0; 42])
  /\ (forall i x y, [0; 5] !! S i = Some x -> [0; 42] !! S i = Some y -> x < y).
Proof. apply (recorded_and_true_offsets two_files). reflexivity. Defined.

(** ** More on the settling of [File.unzip] *)

Section Settling.

(** With distinct names [zipFiles.file(name)] finds the entry itself. *)
Lemma file_of_listed (zipFiles : list ZipObject) e :
  NoDup (zo_name <$> zipFiles) ->
  e ∈ zipFiles ->
  file_of zipFiles (zo_name e) = if zo_dir e then None else Some e.
Proof.
  unfold file_of. intros Hnodup He.
  assert (find (fun o => bool_decide (zo_name o = zo_name e)) zipFiles = Some e) as ->; [| done].
  induction zipFiles as [| o rest IH]; [by apply elem_of_nil in He |].
  rewrite fmap_cons in Hnodup. apply NoDup_cons in Hnodup as [Hfresh Hnodup].
  simpl. case_bool_decide as Hname.
  - apply elem_of_cons in He as [-> | He]; [done |].
    exfalso. apply Hfresh. rewrite Hname. by apply list_elem_of_fmap_2.
  - apply elem_of_cons in He as [-> | He]; [done |]. by apply IH.
Qed.

(** [forEach] over files only registers one job per entry, in order. *)
Lemma forEach_register_files (zipFiles entries : list ZipObject) :
  NoDup (zo_name <$> zipFiles) ->
  entries ⊆ zipFiles ->
  Forall (fun o => zo_dir o = false) entries ->
  forEach_register zipFiles entries = (job_of <$> entries, None).
Proof.
  intros Hnodup. induction entries as [| e rest IH]; intros Hsub Hfiles; [done |].
  apply Forall_cons in Hfiles as [He Hrest].
  simpl. rewrite file_of_listed, He by (done || set_solver).
  rewrite IH by (done || set_solver). done.
Qed.

(** A folder among the entries makes the callback throw. *)
Lemma forEach_register_folder (zipFiles entries : list ZipObject) :
  NoDup (zo_name <$> zipFiles) ->
  entries ⊆ zipFiles ->
  Exists (fun o => zo_dir o = true) entries ->
  exists jobs, forEach_register zipFiles entries
               = (jobs, Some (TypeError "null (reading 'async')")).
Proof.
  intros Hnodup. induction entries as [| e rest IH]; intros Hsub Hdir.
  - by apply Exists_nil in Hdir.
  - simpl. rewrite file_of_listed by (done || set_solver).
    destruct (zo_dir e) eqn:He; [eauto |].
    apply Exists_cons in Hdir as [Hdir | Hdir]; [congruence |].
    destruct IH as [jobs ->]; [set_solver | done |]. eauto.
Qed.

Lemma omap_pushed_job_of (entries : list ZipObject) : omap pushed (job_of <$> entries) = omap extracted entries.
Proof.
  induction entries as [| e rest IH]; [done |].
  rewrite fmap_cons. cbn [omap list_omap]. rewrite <- IH.
  unfold job_of, extracted, pushed. by destruct (zo_async_string e).
Qed.

End Settling.

(** X6. When the archive lists a folder, the callback of [forEach] reads
    [.async] off [null] and throws; the promise is rejected with the plain
    [Error] "Failed to unzip the file: ..." and the caller receives no
    array, in whatever order the jobs registered so far run. *)
Theorem unzip_folder_rejects h zipBlob arrayBuffer loadAsync zipFiles order :
  readAsArrayBuffer h zipBlob = Some arrayBuffer ->
  JSZip h = Some loadAsync ->
  loadAsync arrayBuffer = Ok zipFiles ->
  NoDup (zo_name <$> zipFiles) ->
  Exists (fun o => zo_dir o = true) zipFiles ->
  promise (unzip h zipBlob order)
  = Rejected (Error ("Failed to unzip the file: "
                       +:+ message (TypeError "null (reading 'async')")))
  /\ received (unzip h zipBlob order) = None.
Proof.
  intros Hread Hlib Hload Hnodup Hdir.
  destruct (forEach_register_folder zipFiles zipFiles Hnodup) as [jobs Hjobs]; [done | done |].
  assert (promise (unzip h zipBlob order)
          = Rejected (Error ("Failed to unzip the file: "
                               +:+ message (TypeError "null (reading 'async')")))) as Hp.
  { unfold unzip. apply run_jobs_rejected.
    unfold unzip_start, onload. by rewrite Hread, Hlib, Hload, Hjobs. }
  split; [exact Hp |]. unfold received. by rewrite Hp.
Qed.

Lemma unzip_folder_rejects_witness :
  promise (unzip folder_page hello_blob (unzip_jobs folder_page hello_blob))
  = Rejected (Error ("Failed to unzip the file: "
                       +:+ message (TypeError "null (reading 'async')")))
  /\ received (unzip folder_page hello_blob (unzip_jobs folder_page hello_blob)) = None.
Proof.
  apply (unzip_folder_rejects folder_page hello_blob (blob_bytes hello_blob)
           (fun _ => Ok [ {| zo_name := lit "a.txt"; zo_dir := false;
                             zo_async_string := Ok (lit "A") |};
                          {| zo_name := lit "docs/"; zo_dir := true;
                             zo_async_string := Ok [] |} ])
           [ {| zo_name := lit "a.txt"; zo_dir := false;
                zo_async_string := Ok (lit "A") |};
             {| zo_name := lit "docs/"; zo_dir := true;
                zo_async_string := Ok [] |} ]).
  - reflexivity.
  - reflexivity.
  - reflexivity.
  - apply (bool_decide_unpack _). vm_compute. exact I.
  - apply Exists_cons_tl, Exists_cons_hd. reflexivity.
Defined.

(** X7. When the archive lists files only, the promise is fulfilled in
    every order in which the event loop runs the queued jobs, whether the
    extractions succeed or not, and the array the caller holds ends up with
    exactly the entries whose extraction succeeded, in the order in which
    they settled. *)
Theorem unzip_fulfilled_whatever_fails h zipBlob arrayBuffer loadAsync zipFiles order :
  readAsArrayBuffer h zipBlob = Some arrayBuffer ->
  JSZip h = Some loadAsync ->
  loadAsync arrayBuffer = Ok zipFiles ->
  NoDup (zo_name <$> zipFiles) ->
  Forall (fun o => zo_dir o = false) zipFiles ->
  order ≡ₚ unzip_jobs h zipBlob ->
  promise (unzip h zipBlob order) = Fulfilled
  /\ extractedFiles (unzip h zipBlob order) = omap pushed order
  /\ extractedFiles (unzip h zipBlob order) ≡ₚ omap extracted zipFiles.
Proof.
  intros Hread Hlib Hload Hnodup Hfiles Horder.
  assert (unzip_start h zipBlob
          = ({| extractedFiles := []; promise := Pending |},
             (job_of <$> zipFiles) ++ [all_settled])) as Hstart.
  { unfold unzip_start, onload. rewrite Hread, Hlib, Hload.
    by rewrite forEach_register_files. }
  unfold unzip_jobs in Horder. unfold unzip. rewrite Hstart in *. simpl in *.
  split; [| split].
  - rewrite run_jobs_pending by done. rewrite bool_decide_eq_true_2; [done |].
    rewrite Horder, elem_of_app, list_elem_of_singleton. by right.
  - by rewrite run_jobs_extractedFiles.
  - rewrite run_jobs_extractedFiles. simpl. rewrite Horder, omap_app. simpl.
    by rewrite (right_id_L [] (++)), omap_pushed_job_of.
Qed.

Lemma unzip_fulfilled_whatever_fails_witness :
  promise (unzip half_broken_page hello_blob (unzip_jobs half_broken_page hello_blob))
  = Fulfilled
  /\ extractedFiles (unzip half_broken_page hello_blob
                       (unzip_jobs half_broken_page hello_blob))
     = omap pushed (unzip_jobs half_broken_page hello_blob)
  /\ extractedFiles (unzip half_broken_page hello_blob
                       (unzip_jobs half_broken_page hello_blob))
     ≡ₚ omap extracted
          [ {| zo_name := lit "a.txt"; zo_dir := false;
               zo_async_string := Ok (lit "A") |};
            {| zo_name := lit "b.txt"; zo_dir := false;
               zo_async_string := Throw (Error "invalid stored block lengths") |} ].
Proof.
  apply (unzip_fulfilled_whatever_fails half_broken_page hello_blob (blob_bytes hello_blob)
           (fun _ => Ok [ {| zo_name := lit "a.txt"; zo_dir := false;
                             zo_async_string := Ok (lit "A") |};
                          {| zo_name := lit "b.txt"; zo_dir := false;
                             zo_async_string :=
                               Throw (Error "invalid stored block lengths") |} ])).
  - reflexivity.
  - reflexivity.
  - reflexivity.
  - apply (bool_decide_unpack _). vm_compute. exact I.
  - repeat constructor.
  - reflexivity.
Defined.

(** ** [Blob.chunkBlob] *)

Section Chunks.

Lemma Blob_slice_chunk blob offset2 chunkSize :
  0 <= offset2 < Blob_size blob ->
  0 < chunkSize ->
  blob_bytes (Blob_slice blob offset2 (offset2 + chunkSize))
  = take (Z.to_nat chunkSize) (drop (Z.to_nat offset2) (blob_bytes blob)).
Proof.
  intros Hoffset Hsize. unfold Blob_slice, Blob_size in *.
  destruct (Z.ltb_spec offset2 0); [lia |].
  destruct (Z.ltb_spec (offset2 + chunkSize) 0); [lia |].
  simpl. rewrite (Z.min_l offset2) by lia.
  destruct (Z.le_gt_cases (offset2 + chunkSize) (Z.of_nat (length (blob_bytes blob)))).
  - rewrite Z.min_l, Z.max_l by lia. do 2 f_equal. lia.
  - rewrite Z.min_r, Z.max_l by lia.
    rewrite !take_ge; [done | |]; rewrite length_drop; lia.
Qed.

Lemma chunkBlob_loop_spec blob chunkSize :
  0 < chunkSize ->
  forall fuel offset2 chunks,
    0 <= offset2 ->
    Z.max (Blob_size blob - offset2) 0 < Z.of_nat fuel ->
    exists rest,
      chunkBlob_loop fuel blob chunkSize offset2 chunks = Some (chunks ++ rest)
      /\ concat (blob_bytes <$> rest) = drop (Z.to_nat offset2) (blob_bytes blob)
      /\ Forall (fun c => 0 < Blob_size c <= chunkSize) rest
      /\ (forall i c, rest !! i = Some c -> (S i < length rest)%nat -> Blob_size c = chunkSize)
      /\ (Blob_size blob <= offset2 -> rest = [])
      /\ Z.of_nat (length rest) = (Z.max (Blob_size blob - offset2) 0 + chunkSize - 1) / chunkSize.
Proof.
  intros Hsize fuel. induction fuel as [| fuel IH]; intros offset2 chunks Hoffset Hfuel.
  - lia.
  - cbn [chunkBlob_loop].
    destruct (Z.ltb_spec offset2 (Blob_size blob)) as [Hlt | Hge].
    + destruct (IH (offset2 + chunkSize)
                   (chunks ++ [Blob_slice blob offset2 (offset2 + chunkSize)]))
        as (rest & Hloop & Hconcat & Hsizes & Hfull & Hnil & Hcount); [lia | lia |].
      exists (Blob_slice blob offset2 (offset2 + chunkSize) :: rest).
      assert (Blob_size (Blob_slice blob offset2 (offset2 + chunkSize))
              = Z.min chunkSize (Blob_size blob - offset2)) as Hchunk.
      { unfold Blob_size at 1. rewrite Blob_slice_chunk by lia.
        rewrite length_take, length_drop. unfold Blob_size in *. lia. }
      split; [by rewrite Hloop, <- (assoc_L (++)) |].
      split; [| split; [| split; [| split]]].
      * rewrite fmap_cons, concat_cons, Hconcat, Blob_slice_chunk by lia.
        rewrite Z2Nat.inj_add by lia. rewrite <- drop_drop. apply take_drop.
      * constructor; [lia | done].
      * intros [| i] c Hc Hi; simpl in *.
        -- injection Hc as <-. rewrite Hchunk.
           destruct (Z.le_gt_cases (Blob_size blob) (offset2 + chunkSize)) as [Hle | Hgt];
             [| lia].
           rewrite Hnil in Hi by done. simpl in Hi. lia.
        -- apply (Hfull i c Hc). lia.
      * lia.
      * cbn [length]. rewrite Nat2Z.inj_succ, Hcount.
        rewrite (Z.max_l (Blob_size blob - offset2)) by lia.
        destruct (Z.le_gt_cases 0 (Blob_size blob - (offset2 + chunkSize))).
        -- rewrite Z.max_l by lia.
           replace (Blob_size blob - offset2 + chunkSize - 1)
             with (Blob_size blob - (offset2 + chunkSize) + chunkSize - 1 + 1 * chunkSize)
             by lia.
           rewrite Z.div_add by lia. lia.
        -- rewrite Z.max_r by lia.
           rewrite (Z.div_small (0 + chunkSize - 1)) by lia.
           change (Z.succ 0) with 1.
           apply (Z.div_unique _ _ 1 (Blob_size blob - offset2 - 1)); lia.
    + exists []. rewrite (right_id_L [] (++)).
      split; [done |]. split; [| split; [| split; [| split]]].
      * rewrite drop_ge; [done |]. unfold Blob_size in Hge. lia.
      * constructor.
      * intros i c Hc. done.
      * done.
      * simpl. rewrite Z.max_r by lia. symmetry. apply Z.div_small. lia.
Qed.

End Chunks.



(** X9. For a chunk size that is a positive integer, every chunk has
    between 1 and [chunkSize] bytes, every chunk but the last has exactly
    [chunkSize], and there are as many chunks as the size divided by
    [chunkSize], rounded up. *)
Theorem chunkBlob_sizes (fuel : nat) (blob : Blob) (chunkSize : Z) :
  0 < chunkSize ->
  Blob_size blob < Z.of_nat fuel ->
  exists chunks,
    chunkBlob fuel blob chunkSize = Some chunks
    /\ Forall (fun c => 0 < Blob_size c <= chunkSize) chunks
    /\ (forall i c, chunks !! i = Some c -> (S i < length chunks)%nat ->
                    Blob_size c = chunkSize)
    /\ Z.of_nat (length chunks) = (Blob_size blob + chunkSize - 1) / chunkSize.
Proof.
  intros Hsize Hfuel.
  destruct (chunkBlob_loop_spec blob chunkSize Hsize fuel 0 [])
    as (rest & Hloop & _ & Hsizes & Hfull & _ & Hcount);
    [lia | unfold Blob_size in *; lia |].
  exists rest. repeat split; try done.
  rewrite Hcount. f_equal. unfold Blob_size. lia.
Qed.

Lemma chunkBlob_sizes_witness :
  exists chunks,
    chunkBlob 6 (mkBlob [1; 2; 3; 4; 5] "text/plain") 2 = Some chunks
    /\ Forall (fun c => 0 < Blob_size c <= 2) chunks
    /\ (forall i c, chunks !! i = Some c -> (S i < length chunks)%nat -> Blob_size c = 2)
    /\ Z.of_nat (length chunks)
       = (Blob_size (mkBlob [1; 2; 3; 4; 5] "text/plain") + 2 - 1) / 2.
Proof.
  apply (chunkBlob_sizes 6 (mkBlob [1; 2; 3; 4; 5] "text/plain") 2).
  - lia.
  - vm_compute. reflexivity.
Defined.

(** X10. With a chunk size of zero or below, [chunkBlob] never leaves its
    loop on a blob that is not empty: no number of iterations reaches the
    end. *)
Theorem chunkBlob_diverges (blob : Blob) (chunkSize : Z) :
  chunkSize <= 0 ->
  0 < Blob_size blob ->
  forall fuel, chunkBlob fuel blob chunkSize = None.
Proof.
  intros Hsize Hblob fuel. unfold chunkBlob.
  assert (forall offset2 chunks, offset2 <= 0 ->
            chunkBlob_loop fuel blob chunkSize offset2 chunks = None) as Hloop;
    [| by apply Hloop].
  induction fuel as [| fuel IH]; intros offset2 chunks Hoffset; [done |].
  cbn [chunkBlob_loop].
  destruct (Z.ltb_spec offset2 (Blob_size blob)); [| lia].
  apply IH. lia.
Qed.

Lemma chunkBlob_diverges_witness :
  chunkBlob 1000 (mkBlob [1; 2; 3] "") 0 = None.
Proof.
  apply (chunkBlob_diverges (mkBlob [1; 2; 3] "") 0).
  - lia.
  - vm_compute. reflexivity.
Defined.

(** ** [Blob.blobToHex] *)

Section Hex.

Lemma byte_hex (byte : Z) :
  0 <= byte < 256 ->
  padStart 2 (lit "0") (toString16 byte) = [hex_digit (byte / 16); hex_digit (byte mod 16)].
Proof.
  intros Hbyte.
  assert (forallb (fun b => bool_decide
            (padStart 2 (lit "0") (toString16 b) = [hex_digit (b / 16); hex_digit (b mod 16)]))
            (seqZ 0 256) = true) as Hall by (vm_compute; reflexivity).
  rewrite forallb_forall in Hall.
  specialize (Hall byte). rewrite bool_decide_eq_true in Hall.
  apply Hall, list_elem_of_In, elem_of_seqZ. lia.
Qed.

Lemma hex_digit_inj (d1 d2 : Z) :
  0 <= d1 < 16 -> 0 <= d2 < 16 -> hex_digit d1 = hex_digit d2 -> d1 = d2.
Proof.
  unfold hex_digit. intros H1 H2.
  destruct (Z.ltb_spec d1 10), (Z.ltb_spec d2 10); lia.
Qed.

Lemma hex_digit_lower (d : Z) :
  0 <= d < 16 ->
  (48 <= hex_digit d <= 57) \/ (97 <= hex_digit d <= 102).
Proof. unfold hex_digit. intros Hd. destruct (Z.ltb_spec d 10); lia. Qed.

Lemma blobToHex_cons byte bytes type :
  0 <= byte < 256 ->
  blobToHex (mkBlob (byte :: bytes) type)
  = hex_digit (byte / 16) :: hex_digit (byte mod 16) :: blobToHex (mkBlob bytes type).
Proof.
  intros Hbyte. unfold blobToHex. cbn [blob_bytes].
  by rewrite fmap_cons, concat_cons, byte_hex.
Qed.

End Hex.

(** X11. [blobToHex] writes two characters per byte, each one of 0-9 or
    a-f: the string is twice as long as the blob. *)
Theorem blobToHex_shape (blob : Blob) :
  Forall (fun byte => 0 <= byte < 256) (blob_bytes blob) ->
  length (blobToHex blob) = (2 * length (blob_bytes blob))%nat
  /\ Forall (fun c => 48 <= c <= 57 \/ 97 <= c <= 102) (blobToHex blob).
Proof.
  destruct blob as [bytes type]. cbn [blob_bytes].
  induction bytes as [| byte bytes IH]; intros Hbytes.
  - split; [done | constructor].
  - apply Forall_cons in Hbytes as [Hbyte Hbytes].
    destruct (IH Hbytes) as [Hlen Hchars].
    rewrite blobToHex_cons by done. split.
    + cbn [length]. rewrite Hlen. lia.
    + apply Forall_cons_2; [| apply Forall_cons_2; [| done]];
        apply hex_digit_lower; Z.div_mod_to_equations; lia.
Qed.

Lemma blobToHex_shape_witness :
  length (blobToHex sample_blob) = (2 * length (blob_bytes sample_blob))%nat
  /\ Forall (fun c => 48 <= c <= 57 \/ 97 <= c <= 102) (blobToHex sample_blob).
Proof.
  apply (blobToHex_shape sample_blob).
  repeat constructor; lia.
Defined.

(** X12. [blobToHex] loses nothing: two blobs with the same hexadecimal
    string have the same bytes. *)
Theorem blobToHex_injective (blob1 blob2 : Blob) :
  Forall (fun byte => 0 <= byte < 256) (blob_bytes blob1) ->
  Forall (fun byte => 0 <= byte < 256) (blob_bytes blob2) ->
  blobToHex blob1 = blobToHex blob2 ->
  blob_bytes blob1 = blob_bytes blob2.
Proof.
  destruct blob1 as [bytes1 type1], blob2 as [bytes2 type2]. cbn [blob_bytes].
  revert bytes2.
  induction bytes1 as [| b1 bytes1 IH]; intros [| b2 bytes2] H1 H2 Heq; try done.
  - apply Forall_cons in H2 as [Hb2 _]. by rewrite blobToHex_cons in Heq.
  - apply Forall_cons in H1 as [Hb1 _]. by rewrite blobToHex_cons in Heq.
  - apply Forall_cons in H1 as [Hb1 H1]. apply Forall_cons in H2 as [Hb2 H2].
    rewrite !blobToHex_cons in Heq by done.
    injection Heq as Hhi Hlo Hrest.
    apply hex_digit_inj in Hhi; [| Z.div_mod_to_equations; lia ..].
    apply hex_digit_inj in Hlo; [| Z.div_mod_to_equations; lia ..].
    f_equal.
    + Z.div_mod_to_equations. lia.
    + by apply IH.
Qed.

Lemma blobToHex_injective_witness :
  blob_bytes (mkBlob [171; 205] "a") = blob_bytes (mkBlob [171; 205] "b").
Proof.
  apply (blobToHex_injective (mkBlob [171; 205] "a") (mkBlob [171; 205] "b")).
  - repeat constructor; lia.
  - repeat constructor; lia.
  - reflexivity.
Defined.

(** ** Patterns: the matcher decides the language *)

Section Patterns.

Lemma lang_Eps_inv s : lang Eps s <-> s = [].
Proof. split; [by inversion 1 | intros ->; constructor]. Qed.

Lemma lang_Void_inv s : ~ lang Void s.
Proof. inversion 1. Qed.

Lemma lang_Chr_inv class s : lang (Chr class) s <-> exists c, s = [c] /\ class c = true.
Proof.
  split.
  - inversion 1; subst. eauto.
  - intros (c & -> & Hc). by constructor.
Qed.

Lemma lang_Seq_inv r1 r2 s :
  lang (Seq r1 r2) s <-> exists s1 s2, s = s1 ++ s2 /\ lang r1 s1 /\ lang r2 s2.
Proof.
  split.
  - inversion 1; subst. eauto.
  - intros (s1 & s2 & -> & H1 & H2). by constructor.
Qed.

Lemma lang_Alt_inv r1 r2 s : lang (Alt r1 r2) s <-> lang r1 s \/ lang r2 s.
Proof.
  split.
  - inversion 1; subst; auto.
  - intros [H | H]; [by apply lang_Alt_l | by apply lang_Alt_r].
Qed.

Lemma lang_Lit_inv c s : lang (Lit c) s <-> s = [c].
Proof.
  unfold Lit. rewrite lang_Chr_inv. split.
  - intros (c' & -> & Hc). apply Z.eqb_eq in Hc. by subst.
  - intros ->. exists c. split; [done | apply Z.eqb_refl].
Qed.

Lemma lang_Str_inv s t : lang (Str s) t <-> t = s.
Proof.
  revert t. induction s as [| c s IH]; intros t; simpl.
  - apply lang_Eps_inv.
  - rewrite lang_Seq_inv. split.
    + intros (s1 & s2 & -> & H1 & H2). apply lang_Lit_inv in H1. apply IH in H2.
      by subst.
    + intros ->. exists [c], s. split; [done |]. split; [by apply lang_Lit_inv | by apply IH].
Qed.

Lemma nullable_lang r : nullable r = true <-> lang r [].
Proof.
  induction r as [| | class | r1 IH1 r2 IH2 | r1 IH1 r2 IH2 | r IH]; simpl.
  - split; [constructor | done].
  - split; [done | by intros ?%lang_Void_inv].
  - split; [done |]. intros (c & ? & _)%lang_Chr_inv. done.
  - rewrite andb_true_iff, IH1, IH2, lang_Seq_inv. split.
    + intros [H1 H2]. by exists [], [].
    + intros (s1 & s2 & Hnil & H1 & H2). symmetry in Hnil.
      apply app_eq_nil in Hnil as [-> ->]. done.
  - by rewrite orb_true_iff, IH1, IH2, lang_Alt_inv.
  - split; [constructor | done].
Qed.

Lemma lang_Star_cons_inv r c s :
  lang (Star r) (c :: s) ->
  exists s1 s2, s = s1 ++ s2 /\ lang r (c :: s1) /\ lang (Star r) s2.
Proof.
  intros H. remember (Star r) as r' eqn:Hr. remember (c :: s) as t eqn:Ht.
  induction H as [| | | | | | r0 s1 s2 H1 _ H2 IH2]; try discriminate.
  injection Hr as ->.
  destruct s1 as [| c1 s1]; simpl in Ht.
  - by apply IH2.
  - injection Ht as -> <-. eauto.
Qed.

Lemma deriv_lang c r s : lang (deriv c r) s <-> lang r (c :: s).
Proof.
  revert s.
  induction r as [| | class | r1 IH1 r2 IH2 | r1 IH1 r2 IH2 | r IH]; intros s; simpl.
  - split; [by intros ?%lang_Void_inv | by intros ?%lang_Eps_inv].
  - split; by intros ?%lang_Void_inv.
  - rewrite lang_Chr_inv. destruct (class c) eqn:Hc.
    + rewrite lang_Eps_inv. split.
      * intros ->. eauto.
      * by intros (c' & [= -> ->] & _).
    + split; [by intros ?%lang_Void_inv |].
      intros (c' & [= -> ->] & Hc'). congruence.
  - assert (lang (Seq (deriv c r1) r2) s
            <-> exists s1 s2, s = s1 ++ s2 /\ lang r1 (c :: s1) /\ lang r2 s2) as Hfirst.
    { rewrite lang_Seq_inv. split.
      - intros (s1 & s2 & -> & H1 & H2). apply IH1 in H1. eauto.
      - intros (s1 & s2 & -> & H1 & H2). apply IH1 in H1. eauto. }
    rewrite (lang_Seq_inv r1 r2).
    destruct (nullable r1) eqn:Hnull.
    + rewrite lang_Alt_inv, Hfirst, IH2. split.
      * intros [(s1 & s2 & -> & H1 & H2) | H2].
        -- exists (c :: s1), s2. done.
        -- exists [], (c :: s). split; [done |]. split; [by apply nullable_lang | done].
      * intros ([| c1 s1] & s2 & Heq & H1 & H2); simpl in Heq.
        -- subst s2. by right.
        -- injection Heq as -> ->. left. eauto.
    + rewrite Hfirst. split.
      * intros (s1 & s2 & -> & H1 & H2). exists (c :: s1), s2. done.
      * intros ([| c1 s1] & s2 & Heq & H1 & H2); simpl in Heq.
        -- apply nullable_lang in H1. congruence.
        -- injection Heq as -> ->. eauto.
  - by rewrite !lang_Alt_inv, IH1, IH2.
  - rewrite lang_Seq_inv. split.
    + intros (s1 & s2 & -> & H1 & H2). apply IH in H1.
      by apply (lang_Star_cons r (c :: s1) s2).
    + intros (s1 & s2 & -> & H1 & H2)%lang_Star_cons_inv. apply IH in H1. eauto.
Qed.

(** [test] answers membership in the language of the pattern. *)
Lemma re_test_lang r s : re_test r s = true <-> lang r s.
Proof.
  unfold re_test. revert r. induction s as [| c s IH]; intros r; simpl.
  - apply nullable_lang.
  - by rewrite IH, deriv_lang.
Qed.

Lemma re_test_false r s : re_test r s = false <-> ~ lang r s.
Proof. rewrite <- re_test_lang. by destruct (re_test r s). Qed.

End Patterns.

(** ** [Color] *)

Section Colors.

Lemma is_hex_chars c : is_hex c = true <-> c ∈ hex_chars.
Proof.
  unfold hex_chars. rewrite !elem_of_app, !elem_of_seqZ.
  unfold is_hex, is_digit. lia.
Qed.

Lemma lang_hex_pair s :
  lang hex_pair s <-> exists c1 c2, s = [c1; c2] /\ is_hex c1 = true /\ is_hex c2 = true.
Proof.
  unfold hex_pair. rewrite lang_Seq_inv. split.
  - intros (s1 & s2 & -> & (c1 & -> & H1)%lang_Chr_inv & (c2 & -> & H2)%lang_Chr_inv).
    by exists c1, c2.
  - intros (c1 & c2 & -> & H1 & H2). exists [c1], [c2].
    split; [done |]. split; apply lang_Chr_inv; eauto.
Qed.

(** The strings the pattern of [hexToRgb] accepts: six hexadecimal digits,
    with or without a leading [#]. *)
Lemma lang_hex_color s :
  lang hex_color_regex s <->
  exists digits, length digits = 6%nat
                 /\ Forall (fun c => is_hex c = true) digits
                 /\ (s = digits \/ s = 35 :: digits).
Proof.
  unfold hex_color_regex, Opt.
  rewrite lang_Seq_inv. split.
  - intros (s0 & s' & -> & Hsharp & Hrest).
    apply lang_Seq_inv in Hrest as (p1 & s'' & -> & Hp1 & Hrest).
    apply lang_Seq_inv in Hrest as (p2 & p3 & -> & Hp2 & Hp3).
    apply lang_hex_pair in Hp1 as (c1 & c2 & -> & H1 & H2).
    apply lang_hex_pair in Hp2 as (c3 & c4 & -> & H3 & H4).
    apply lang_hex_pair in Hp3 as (c5 & c6 & -> & H5 & H6).
    exists [c1; c2; c3; c4; c5; c6]. split; [done |]. split; [by repeat constructor |].
    apply lang_Alt_inv in Hsharp as [->%lang_Lit_inv | ->%lang_Eps_inv]; auto.
  - intros (digits & Hlen & Hhex & Hs).
    destruct digits as [| c1 [| c2 [| c3 [| c4 [| c5 [| c6 [| ? ?]]]]]]]; try done.
    repeat (apply Forall_cons in Hhex as [? Hhex]).
    exists (if decide (s = 35 :: [c1; c2; c3; c4; c5; c6]) then [35] else []),
           [c1; c2; c3; c4; c5; c6].
    split; [| split].
    + case_decide; [done |]. by destruct Hs.
    + apply lang_Alt_inv. case_decide; [left; by apply lang_Lit_inv | right; constructor].
    + apply lang_Seq_inv. exists [c1; c2], [c3; c4; c5; c6]. split; [done |].
      split; [apply lang_hex_pair; eauto |].
      apply lang_Seq_inv. exists [c3; c4], [c5; c6]. split; [done |].
      split; apply lang_hex_pair; eauto.
Qed.

(** Every byte prints as two hexadecimal digits that [parseInt] reads back. *)
Lemma toHex_byte (v : Z) :
  0 <= v < 256 ->
  exists c1 c2, toHex (Some v) = [c1; c2]
                /\ is_hex c1 = true /\ is_hex c2 = true
                /\ parseInt16 [c1; c2] = Some v.
Proof.
  intros Hv.
  assert (forallb (fun v =>
            match toHex (Some v) with
            | [c1; c2] => is_hex c1 && is_hex c2
                          && bool_decide (parseInt16 [c1; c2] = Some v)
            | _ => false
            end) (seqZ 0 256) = true) as Hall by (vm_compute; reflexivity).
  rewrite forallb_forall in Hall. specialize (Hall v).
  destruct (toHex (Some v)) as [| c1 [| c2 [| ? ?]]];
    try (discriminate Hall; apply list_elem_of_In, elem_of_seqZ; lia).
  exists c1, c2.
  assert (In v (seqZ 0 256)) as Hin by (apply list_elem_of_In, elem_of_seqZ; lia).
  apply Hall in Hin. apply andb_true_iff in Hin as [[H1 H2]%andb_true_iff Hparse].
  rewrite bool_decide_eq_true in Hparse. done.
Qed.

(** Two hexadecimal digits read as a byte, which prints as the same digits
    in lower case. *)
Lemma parse_pair (c1 c2 : Z) :
  is_hex c1 = true -> is_hex c2 = true ->
  exists v, parseInt16 [c1; c2] = Some v
            /\ 0 <= v < 256
            /\ toHex (Some v) = [to_lower c1; to_lower c2].
Proof.
  intros H1%is_hex_chars H2%is_hex_chars.
  assert (forallb (fun c1 => forallb (fun c2 =>
            match parseInt16 [c1; c2] with
            | Some v => (0 <=? v) && (v <? 256)
                        && bool_decide (toHex (Some v) = [to_lower c1; to_lower c2])
            | None => false
            end) hex_chars) hex_chars = true) as Hall by (vm_compute; reflexivity).
  rewrite forallb_forall in Hall.
  apply list_elem_of_In, Hall in H1. rewrite forallb_forall in H1.
  apply list_elem_of_In, H1 in H2.
  destruct (parseInt16 [c1; c2]) as [v |]; [| done].
  apply andb_true_iff in H2 as [Hrange Hprint]. rewrite bool_decide_eq_true in Hprint.
  exists v. split; [done |]. split; [lia | done].
Qed.

Lemma hexToRgb_digits (s digits : jsstring) :
  length digits = 6%nat ->
  Forall (fun c => is_hex c = true) digits ->
  s = digits \/ s = 35 :: digits ->
  hexToRgb s = Some {| rgb_r := parseInt16 (take 2 digits);
                       rgb_g := parseInt16 (take 2 (drop 2 digits));
                       rgb_b := parseInt16 (take 2 (drop 4 digits)) |}.
Proof.
  intros Hlen Hhex Hs. unfold hexToRgb.
  assert (re_test hex_color_regex s = true) as ->
    by (apply re_test_lang, lang_hex_color; eauto).
  assert (drop (length s - 6) s = digits) as ->; [| done].
  destruct Hs as [-> | ->].
  - by rewrite Hlen.
  - cbn [length]. by rewrite Hlen.
Qed.

Lemma radix16_nonempty fuel n : (1 <= length (radix16 (S fuel) n))%nat.
Proof.
  cbn [radix16]. destruct (n <? 16); [simpl; lia |]. rewrite length_app. simpl. lia.
Qed.

Lemma toHex_length (c : option Z) : (2 <= length (toHex c))%nat.
Proof.
  unfold toHex. cbv zeta. destruct c as [n |]; [| simpl; lia].
  assert (1 <= length (toString16 n))%nat as Hlen.
  { unfold toString16. destruct (n <? 0); [simpl; lia | apply radix16_nonempty]. }
  destruct (Nat.eqb_spec (length (toString16 n)) 1) as [Hone | ?]; [| lia].
  rewrite length_app, Hone. simpl. lia.
Qed.

Lemma toHex_large n : 256 <= n -> (3 <= length (toHex (Some n)))%nat.
Proof.
  intros Hn. unfold toHex, toString16. cbv zeta.
  destruct (Z.ltb_spec n 0); [lia |].
  assert (8 <= Z.log2 n) by (change 8 with (Z.log2 256); by apply Z.log2_le_mono).
  destruct (Z.to_nat (Z.log2 n)) as [| [| fuel]] eqn:Hfuel; [lia | lia |].
  assert (3 <= length (radix16 (S (S (S fuel))) n))%nat as Hlen.
  { cbn [radix16]. destruct (Z.ltb_spec n 16); [lia |].
    destruct (Z.ltb_spec (n / 16) 16); [Z.div_mod_to_equations; lia |].
    rewrite !length_app. pose proof (radix16_nonempty fuel (n / 16 / 16)).
    simpl in *. lia. }
  destruct (Nat.eqb_spec (length (radix16 (S (S (S fuel))) n)) 1); lia.
Qed.

Lemma toHex_negative n : n < 0 -> exists rest, toHex (Some n) = 45 :: rest.
Proof.
  intros Hn. unfold toHex, toString16. cbv zeta.
  destruct (Z.ltb_spec n 0); [| lia].
  pose proof (radix16_nonempty (Z.to_nat (Z.log2 (- n))) (- n)).
  destruct (Nat.eqb_spec
              (length (45 :: radix16 (S (Z.to_nat (Z.log2 (- n)))) (- n))) 1) as [Hone |].
  - cbn [length] in Hone. lia.
  - eauto.
Qed.

Lemma hexToRgb_rgbToHex_bytes (r g b : Z) :
  0 <= r < 256 -> 0 <= g < 256 -> 0 <= b < 256 ->
  hexToRgb (rgbToHex (Some r) (Some g) (Some b))
  = Some {| rgb_r := Some r; rgb_g := Some g; rgb_b := Some b |}.
Proof.
  intros Hr Hg Hb.
  destruct (toHex_byte r Hr) as (r1 & r2 & Hrs & ? & ? & Hrp).
  destruct (toHex_byte g Hg) as (g1 & g2 & Hgs & ? & ? & Hgp).
  destruct (toHex_byte b Hb) as (b1 & b2 & Hbs & ? & ? & Hbp).
  unfold rgbToHex. rewrite Hrs, Hgs, Hbs.
  rewrite (hexToRgb_digits _ [r1; r2; g1; g2; b1; b2]).
  - simpl. by rewrite Hrp, Hgp, Hbp.
  - done.
  - by repeat constructor.
  - by right.
Qed.

(** What [hexToRgb] accepts, and what [rgbToHex] makes of its answer. *)
Lemma hexToRgb_Some (hex : jsstring) (c : rgb) :
  hexToRgb hex = Some c ->
  exists vr vg vb,
    c = {| rgb_r := Some vr; rgb_g := Some vg; rgb_b := Some vb |}
    /\ 0 <= vr < 256 /\ 0 <= vg < 256 /\ 0 <= vb < 256
    /\ rgbToHex (Some vr) (Some vg) (Some vb)
       = 35 :: (to_lower <$> drop (length hex - 6) hex).
Proof.
  intros Hc. unfold hexToRgb in Hc.
  destruct (re_test hex_color_regex hex) eqn:Htest; [| done].
  apply re_test_lang, lang_hex_color in Htest as (digits & Hlen & Hhex & Hs).
  assert (drop (length hex - 6) hex = digits) as Hdrop.
  { destruct Hs as [-> | ->]; [by rewrite Hlen | cbn [length]; by rewrite Hlen]. }
  rewrite Hdrop in *. clear Hs Hdrop.
  destruct digits as [| c1 [| c2 [| c3 [| c4 [| c5 [| c6 [| ? ?]]]]]]]; try done.
  repeat (apply Forall_cons in Hhex as [? Hhex]).
  destruct (parse_pair c1 c2) as (vr & Hvr & ? & Hpr); [done | done |].
  destruct (parse_pair c3 c4) as (vg & Hvg & ? & Hpg); [done | done |].
  destruct (parse_pair c5 c6) as (vb & Hvb & ? & Hpb); [done | done |].
  simpl in Hc. rewrite Hvr, Hvg, Hvb in Hc. injection Hc as <-.
  exists vr, vg, vb. repeat split; try lia.
  unfold rgbToHex. by rewrite Hpr, Hpg, Hpb.
Qed.

End Colors.

(** X13. For red, green and blue that are integers between 0 and 255,
    [hexToRgb] gives back the three components that [rgbToHex] wrote. *)
Theorem hexToRgb_rgbToHex (r g b : Z) :
  0 <= r < 256 -> 0 <= g < 256 -> 0 <= b < 256 ->
  hexToRgb (rgbToHex (Some r) (Some g) (Some b))
  = Some {| rgb_r := Some r; rgb_g := Some g; rgb_b := Some b |}.
Proof. apply hexToRgb_rgbToHex_bytes. Qed.

Lemma hexToRgb_rgbToHex_witness :
  hexToRgb (rgbToHex (Some 255) (Some 0) (Some 170))
  = Some {| rgb_r := Some 255; rgb_g := Some 0; rgb_b := Some 170 |}.
Proof. apply (hexToRgb_rgbToHex 255 0 170); lia. Defined.

(** X14. For three integer components, [hexToRgb] reads the output of
    [rgbToHex] exactly when they are between 0 and 255: a negative or larger
    integer gives a string for which [hexToRgb] answers [null]. *)
Theorem hexToRgb_rgbToHex_defined (r g b : Z) :
  is_Some (hexToRgb (rgbToHex (Some r) (Some g) (Some b)))
  <-> (0 <= r < 256 /\ 0 <= g < 256 /\ 0 <= b < 256).
Proof.
  split.
  - intros Hsome. unfold hexToRgb in Hsome.
    destruct (re_test hex_color_regex (rgbToHex (Some r) (Some g) (Some b))) eqn:Htest;
      [| by destruct Hsome].
    apply re_test_lang, lang_hex_color in Htest as (digits & Hlen & Hhex & Hs).
    unfold rgbToHex in Hs. simpl in Hs.
    destruct Hs as [Hs | Hs].
    { rewrite <- Hs in Hhex. apply Forall_cons in Hhex as [? _]. done. }
    injection Hs as Hs.
    pose proof (toHex_length (Some r)) as Hlr.
    pose proof (toHex_length (Some g)) as Hlg.
    pose proof (toHex_length (Some b)) as Hlb.
    assert (length (toHex (Some r)) + length (toHex (Some g)) + length (toHex (Some b))
            = 6)%nat as Htotal.
    { rewrite <- Hlen, <- Hs, !length_app. lia. }
    rewrite <- Hs, !Forall_app in Hhex. destruct Hhex as (Hhr & Hhg & Hhb).
    assert (forall c, Forall (fun c => is_hex c = true) (toHex (Some c)) ->
                      length (toHex (Some c)) = 2%nat -> 0 <= c < 256) as Hbyte.
    { intros c Hc Hlc.
      destruct (Z.lt_ge_cases c 0) as [Hneg |].
      { destruct (toHex_negative c Hneg) as [tl Htl]. rewrite Htl in Hc.
        apply Forall_cons in Hc as [? _]. done. }
      destruct (Z.lt_ge_cases c 256); [lia |].
      pose proof (toHex_large c). lia. }
    split; [| split]; apply Hbyte; (done || lia).
  - intros (Hr & Hg & Hb). by rewrite hexToRgb_rgbToHex_bytes.
Qed.

(** X15. On a string [hexToRgb] accepts, [rgbToHex] of the components it
    found is the same colour in canonical form: a [#] and the six digits in
    lower case. *)
Theorem rgbToHex_hexToRgb (hex : jsstring) (c : rgb) :
  hexToRgb hex = Some c ->
  rgbToHex (rgb_r c) (rgb_g c) (rgb_b c) = 35 :: (to_lower <$> drop (length hex - 6) hex).
Proof.
  intros Hc. destruct (hexToRgb_Some hex c Hc) as (vr & vg & vb & -> & _ & _ & _ & Hprint).
  exact Hprint.
Qed.

Lemma rgbToHex_hexToRgb_witness :
  rgbToHex (Some 171) (Some 205) (Some 239) = 35 :: (to_lower <$> lit "ABCDEF").
Proof.
  apply (rgbToHex_hexToRgb (lit "ABCDEF")
           {| rgb_r := Some 171; rgb_g := Some 205; rgb_b := Some 239 |}).
  reflexivity.
Defined.

(** X16. On a string [hexToRgb] accepts, [invertColor] returns a colour, and
    inverting that colour again gives the first one in canonical form. *)
Theorem invertColor_twice (hex : jsstring) (c : rgb) :
  hexToRgb hex = Some c ->
  exists inverted,
    invertColor hex = Ok inverted
    /\ invertColor inverted = Ok (35 :: (to_lower <$> drop (length hex - 6) hex)).
Proof.
  intros Hc.
  destruct (hexToRgb_Some hex c Hc) as (vr & vg & vb & -> & Hr & Hg & Hb & Hprint).
  unfold invertColor at 1. rewrite Hc. cbn [rgb_r rgb_g rgb_b fmap option_fmap option_map].
  eexists; split; [reflexivity |].
  unfold invertColor. rewrite hexToRgb_rgbToHex_bytes by lia.
  cbn [rgb_r rgb_g rgb_b fmap option_fmap option_map].
  rewrite <- Hprint. do 2 f_equal; f_equal; lia.
Qed.

Lemma invertColor_twice_witness :
  exists inverted,
    invertColor (lit "#0A0b0C") = Ok inverted
    /\ invertColor inverted = Ok (35 :: (to_lower <$> lit "0A0b0C")).
Proof.
  apply (invertColor_twice (lit "#0A0b0C")
           {| rgb_r := Some 10; rgb_g := Some 11; rgb_b := Some 12 |}).
  reflexivity.
Defined.

(** ** [IP] *)

Section Addresses.

Lemma lang_Classes classes w :
  lang (Classes classes) w <-> Forall2 (fun class c => class c = true) classes w.
Proof.
  revert w. induction classes as [| class rest IH]; intros w; simpl.
  - rewrite lang_Eps_inv. split; [intros ->; constructor | by inversion 1].
  - rewrite lang_Seq_inv. split.
    + intros (s1 & s2 & -> & (c & -> & Hc)%lang_Chr_inv & H2%IH). by constructor.
    + inversion 1 as [| ? c ? w' Hc Hrest]; subst.
      exists [c], w'. split; [done |]. split; [apply lang_Chr_inv; eauto | by apply IH].
Qed.

(** A string of the language is made of characters the classes accept. *)
Lemma lang_alphabet (P : Z -> Prop) r s : classes_in P r -> lang r s -> Forall P s.
Proof.
  intros Hr Hs. induction Hs as [| class c Hc | r1 r2 s1 s2 _ IH1 _ IH2 | r1 r2 s _ IH
                                | r1 r2 s _ IH | r | r s1 s2 _ IH1 _ IH2]; simpl in Hr.
  - constructor.
  - repeat constructor. by apply Hr.
  - destruct Hr. apply Forall_app. split; auto.
  - destruct Hr. auto.
  - destruct Hr. auto.
  - constructor.
  - apply Forall_app. split; auto.
Qed.

Lemma dotted_digits_alphabet s : lang dotted_digits s -> Forall digit_or_dot s.
Proof.
  apply lang_alphabet. unfold dotted_digits, Plus, Lit, digit_or_dot, is_digit.
  cbn [classes_in]. repeat split; intros c Hc; lia.
Qed.

Lemma dotted_digits_dot s : lang dotted_digits s -> 46 ∈ s.
Proof.
  unfold dotted_digits. intros (s1 & s2 & -> & _ & H2)%lang_Seq_inv.
  apply lang_Seq_inv in H2 as (d & s3 & -> & ->%lang_Lit_inv & _).
  rewrite elem_of_app. right. by left.
Qed.

Lemma ipv4Regex_alphabet s : lang ipv4Regex s -> Forall digit_or_dot s.
Proof.
  apply lang_alphabet.
  unfold ipv4Regex, octet_regex, Opt, Lit, digit_or_dot, is_digit, in_range.
  cbn [classes_in Classes]. repeat split; intros c Hc; lia.
Qed.

(** What [validateIPv6Address] accepts: [::], four letters f, [:], then
    digits and dots. *)
Lemma ipv6Regex_shape ip :
  lang ipv6Regex ip ->
  exists f1 f2 f3 f4 rest,
    ip = [58; 58; f1; f2; f3; f4; 58] ++ rest
    /\ Forall (fun c => is_fF c = true) [f1; f2; f3; f4]
    /\ lang dotted_digits rest.
Proof.
  unfold ipv6Regex. intros (pre & rest & -> & Hpre%lang_Classes & Hrest)%lang_Seq_inv.
  repeat match goal with
         | H : Forall2 _ (_ :: _) _ |- _ =>
             let c := fresh "c" in let w := fresh "w" in
             let Hc := fresh "Hc" in let Hw := fresh "Hw" in
             apply Forall2_cons_inv_l in H as (c & w & Hc & Hw & ->)
         | H : Forall2 _ [] _ |- _ => apply Forall2_nil_inv_l in H as ->
         end.
  repeat match goal with H : (_ =? _) = true |- _ => apply Z.eqb_eq in H; subst end.
  eexists _, _, _, _, rest. split; [reflexivity |]. split; [by repeat constructor | done].
Qed.

Lemma first_match_Some r width s w :
  first_match r width s = Some w ->
  exists i, w = take width (drop i s) /\ length w = width /\ re_test r w = true.
Proof.
  revert w. induction s as [| c s IH]; intros w; cbn [first_match].
  - destruct (Nat.eqb_spec (length (take width (@nil Z))) width) as [Hlen | ?]; simpl;
      [| done].
    destruct (re_test r (take width [])) eqn:Htest; [| done].
    intros [= <-]. exists 0%nat. by rewrite drop_0.
  - destruct (Nat.eqb_spec (length (take width (c :: s))) width) as [Hlen | ?]; simpl.
    + destruct (re_test r (take width (c :: s))) eqn:Htest.
      * intros [= <-]. exists 0%nat. by rewrite drop_0.
      * intros (i & ? & ? & ?)%IH. by exists (S i).
    + intros (i & ? & ? & ?)%IH. by exists (S i).
Qed.

(** The colons of an address [validateIPv6Address] accepts are at 0, 1, 6. *)
Lemma ipv6_colons ip i :
  lang ipv6Regex ip -> ip !! i = Some 58 -> i = 0%nat \/ i = 1%nat \/ i = 6%nat.
Proof.
  intros (f1 & f2 & f3 & f4 & rest & -> & Hf & Hrest%dotted_digits_alphabet)%ipv6Regex_shape.
  repeat (apply Forall_cons in Hf as [? Hf]).
  destruct i as [| [| [| [| [| [| [| i]]]]]]]; simpl; auto; try (intros [= ->]; done).
  intros Hi. rewrite Forall_lookup in Hrest. apply Hrest in Hi as [? | ?]; done.
Qed.

Lemma radix16_chars fuel n : 0 <= n -> Forall (fun c => 48 <= c) (radix16 fuel n).
Proof.
  revert n. induction fuel as [| fuel IH]; intros n Hn; cbn [radix16]; [constructor |].
  assert (forall d, 0 <= d -> 48 <= hex_digit d) as Hdigit.
  { intros d Hd. unfold hex_digit. destruct (d <? 10); lia. }
  destruct (Z.ltb_spec n 16).
  - repeat constructor. by apply Hdigit.
  - apply Forall_app. split.
    + apply IH. Z.div_mod_to_equations. lia.
    + repeat constructor. apply Hdigit. Z.div_mod_to_equations. lia.
Qed.

Lemma hex_segment_no_dot (segment : option Z) :
  46 ∉ padStart 2 (lit "0") (num_toString16 segment).
Proof.
  assert (Forall (fun c => c <> 46) (num_toString16 segment)) as Hs.
  { destruct segment as [n |]; [| by repeat constructor].
    unfold num_toString16, toString16. destruct (Z.ltb_spec n 0).
    - constructor; [done |].
      eapply Forall_impl; [apply radix16_chars; lia |]. simpl. lia.
    - eapply Forall_impl; [by apply radix16_chars |]. simpl. lia. }
  assert (forall k, Forall (fun c => c <> 46) (concat (replicate k (lit "0")))) as Hpad.
  { induction k as [| k IH]; [constructor | by constructor]. }
  unfold padStart. cbv zeta. intros Hin.
  assert (Forall (fun c => c <> 46)
            (take (2 - length (num_toString16 segment))
                  (concat (replicate (2 - length (num_toString16 segment)) (lit "0")))
             ++ num_toString16 segment)) as Hall.
  { apply Forall_app. split; [apply Forall_take, Hpad | done]. }
  rewrite Forall_forall in Hall. by apply Hall in Hin.
Qed.

Lemma join_no_dot (parts : list jsstring) :
  Forall (fun part => 46 ∉ part) parts -> 46 ∉ join (lit ":") parts.
Proof.
  induction parts as [| part [| part' rest] IH]; intros Hparts.
  - simpl. apply not_elem_of_nil.
  - simpl. by apply Forall_cons in Hparts as [? _].
  - apply Forall_cons in Hparts as [Hpart Hrest].
    change (join (lit ":") (part :: part' :: rest))
      with (part ++ lit ":" ++ join (lit ":") (part' :: rest)).
    rewrite !elem_of_app. intros [? | [Hc | ?]]; [done | | by apply IH].
    apply list_elem_of_singleton in Hc. done.
Qed.

End Addresses.

(** X17. [convertIPv6ToIPv4] answers [null] on every string: an address
    that passes [validateIPv6Address] has digits and dots after [::ffff:],
    and the pattern the function then looks for needs a colon after the two
    characters that follow. *)
Theorem convertIPv6ToIPv4_null (ip : jsstring) : convertIPv6ToIPv4 ip = None.
Proof.
  unfold convertIPv6ToIPv4.
  destruct (validateIPv6Address ip) eqn:Hvalid; [| done]. simpl.
  apply re_test_lang in Hvalid.
  destruct (first_match mapped_regex 18 ip) as [w |] eqn:Hmatch; [| done].
  exfalso.
  apply first_match_Some in Hmatch as (i & Hw & Hlen & Htest).
  apply re_test_lang, lang_Classes in Htest.
  assert (forall k, (k < 18)%nat -> w !! k = ip !! (i + k)%nat) as Hlookup.
  { intros k Hk. rewrite Hw, lookup_take_lt by done. apply lookup_drop. }
  assert (w !! 0%nat = Some 58 /\ w !! 1%nat = Some 58 /\ w !! 9%nat = Some 58)
    as (H0 & H1 & H9).
  { repeat match goal with
           | H : Forall2 _ (_ :: _) _ |- _ =>
               let c := fresh "c" in let w := fresh "w" in
               let Hc := fresh "Hc" in let Hw := fresh "Hw" in
               apply Forall2_cons_inv_l in H as (c & w & Hc & Hw & ->)
           | H : Forall2 _ [] _ |- _ => apply Forall2_nil_inv_l in H as ->
           end.
    repeat match goal with H : (_ =? _) = true |- _ => apply Z.eqb_eq in H; subst end.
    done. }
  rewrite Hlookup in H0, H1, H9 by lia.
  apply (ipv6_colons ip _ Hvalid) in H0, H1, H9. lia.
Qed.

(** X18. The address [convertIPv4ToIPv6] returns is recognised by neither
    validator: [getIPVersion] answers [null] on it. *)
Theorem convertIPv4ToIPv6_unrecognised (ip out : jsstring) :
  convertIPv4ToIPv6 ip = Some out -> getIPVersion out = None.
Proof.
  unfold convertIPv4ToIPv6. destruct (validateIPv4Address ip); [| done].
  cbn [negb]. cbv zeta.
  set (hexSegments := (fun segment => padStart 2 (lit "0") (num_toString16 segment))
                        <$> (Number <$> split_on 46 ip)).
  set (answer := lit "::ffff:" ++ join (lit ":") hexSegments).
  intros [= <-]. unfold getIPVersion.
  assert (validateIPv4Address answer = false) as ->.
  { apply re_test_false. intros Hall%ipv4Regex_alphabet.
    apply Forall_cons in Hall as [[? | ?] _]; done. }
  assert (validateIPv6Address answer = false) as ->; [| done].
  apply re_test_false.
  intros (f1 & f2 & f3 & f4 & rest & Heq & _ & Hdot%dotted_digits_dot)%ipv6Regex_shape.
  injection Heq as _ _ _ _ <-.
  revert Hdot. apply join_no_dot. subst hexSegments.
  apply Forall_fmap, Forall_forall. intros segment _. apply hex_segment_no_dot.
Qed.

Lemma convertIPv4ToIPv6_unrecognised_witness :
  getIPVersion (lit "::ffff:c0:a8:00:01") = None.
Proof.
  apply (convertIPv4ToIPv6_unrecognised (lit "192.168.0.1") (lit "::ffff:c0:a8:00:01")).
  vm_compute. reflexivity.
Defined.

(** X19. With a mask that [isValidSubnetMask] rejects, both network
    addresses are [null] and [areIPsInSameNetwork] answers [true] for any
    two strings. *)
Theorem areIPsInSameNetwork_invalid_mask (ip1 ip2 mask : jsstring) :
  isValidSubnetMask mask = false ->
  areIPsInSameNetwork ip1 ip2 mask = true.
Proof.
  intros Hmask. unfold areIPsInSameNetwork, calculateNetworkAddress.
  rewrite Hmask, !orb_true_r. by apply bool_decide_eq_true.
Qed.

Lemma areIPsInSameNetwork_invalid_mask_witness :
  areIPsInSameNetwork (lit "10.0.0.1") (lit "192.168.1.1") (lit "0.0.0.0") = true.
Proof.
  apply (areIPsInSameNetwork_invalid_mask (lit "10.0.0.1") (lit "192.168.1.1")
           (lit "0.0.0.0")).
  vm_compute. reflexivity.
Defined.

Section Octets.

Lemma is_digit_seqZ c : is_digit c = true <-> c ∈ seqZ 48 10.
Proof. rewrite elem_of_seqZ. unfold is_digit. lia. Qed.

(** On the strings of at most three digits the pattern of one part and
    [is_octet] agree: both are run on the 1110 strings. *)
Lemma octet_regex_is_octet s :
  (length s <= 3)%nat -> Forall (fun c => is_digit c = true) s ->
  re_test octet_regex s = is_octet s.
Proof.
  assert (forallb (fun c1 =>
            Bool.eqb (re_test octet_regex [c1]) (is_octet [c1])
            && forallb (fun c2 =>
                 Bool.eqb (re_test octet_regex [c1; c2]) (is_octet [c1; c2])
                 && forallb (fun c3 =>
                      Bool.eqb (re_test octet_regex [c1; c2; c3]) (is_octet [c1; c2; c3]))
                      (seqZ 48 10))
                 (seqZ 48 10))
            (seqZ 48 10) = true) as Hall by (vm_compute; reflexivity).
  rewrite forallb_forall in Hall.
  intros Hlen Hs. destruct s as [| c1 [| c2 [| c3 [| ? ?]]]]; simpl in Hlen; try lia.
  - vm_compute. reflexivity.
  - apply Forall_cons in Hs as [H1%is_digit_seqZ%list_elem_of_In _].
    apply Hall, andb_true_iff in H1 as [H1 _]. by apply eqb_prop.
  - apply Forall_cons in Hs as [H1%is_digit_seqZ%list_elem_of_In Hs].
    apply Forall_cons in Hs as [H2%is_digit_seqZ%list_elem_of_In _].
    apply Hall, andb_true_iff in H1 as [_ H1]. rewrite forallb_forall in H1.
    apply H1, andb_true_iff in H2 as [H2 _]. by apply eqb_prop.
  - apply Forall_cons in Hs as [H1%is_digit_seqZ%list_elem_of_In Hs].
    apply Forall_cons in Hs as [H2%is_digit_seqZ%list_elem_of_In Hs].
    apply Forall_cons in Hs as [H3%is_digit_seqZ%list_elem_of_In _].
    apply Hall, andb_true_iff in H1 as [_ H1]. rewrite forallb_forall in H1.
    apply H1, andb_true_iff in H2 as [_ H2]. rewrite forallb_forall in H2.
    apply H2 in H3. by apply eqb_prop.
Qed.

Lemma octet_regex_length s : lang octet_regex s -> (length s <= 3)%nat.
Proof.
  unfold octet_regex, Opt. intros [H | [H | H]%lang_Alt_inv]%lang_Alt_inv.
  - apply lang_Classes, Forall2_length in H. simpl in H. lia.
  - apply lang_Classes, Forall2_length in H. simpl in H. lia.
  - apply lang_Seq_inv in H as (s1 & s2 & -> & H1 & H2).
    apply lang_Seq_inv in H2 as (s3 & s4 & -> & (c & -> & _)%lang_Chr_inv & H4).
    apply lang_Alt_inv in H1 as [(c1 & -> & _)%lang_Chr_inv | ->%lang_Eps_inv];
      apply lang_Alt_inv in H4 as [(c4 & -> & _)%lang_Chr_inv | ->%lang_Eps_inv];
      simpl; lia.
Qed.

Lemma is_octet_digits s :
  is_octet s = true -> (length s <= 3)%nat /\ Forall (fun c => is_digit c = true) s.
Proof.
  unfold is_octet. rewrite !andb_true_iff, forallb_forall, Forall_forall.
  intros [[[_ Hlen%Nat.leb_le] Hs] _]. split; [done |].
  intros c Hc%list_elem_of_In. by apply Hs.
Qed.

Lemma lang_octet_regex s : lang octet_regex s <-> is_octet s = true.
Proof.
  split.
  - intros Hs. rewrite <- octet_regex_is_octet.
    + by apply re_test_lang.
    + by apply octet_regex_length.
    + revert Hs. apply lang_alphabet. unfold octet_regex, Opt, is_digit, in_range.
      cbn [classes_in Classes]. repeat split; intros c Hc; lia.
  - intros Hs. apply re_test_lang. destruct (is_octet_digits s Hs).
    by rewrite octet_regex_is_octet.
Qed.

(** The strings [ipv4Regex] accepts. *)
Lemma lang_ipv4Regex ip :
  lang ipv4Regex ip <->
  exists a b c d,
    ip = a ++ 46 :: b ++ 46 :: c ++ 46 :: d
    /\ is_octet a = true /\ is_octet b = true /\ is_octet c = true /\ is_octet d = true.
Proof.
  unfold ipv4Regex. split.
  - intros (a & r1 & -> & Ha%lang_octet_regex & H)%lang_Seq_inv.
    apply lang_Seq_inv in H as (? & r2 & -> & ->%lang_Lit_inv & H).
    apply lang_Seq_inv in H as (b & r3 & -> & Hb%lang_octet_regex & H).
    apply lang_Seq_inv in H as (? & r4 & -> & ->%lang_Lit_inv & H).
    apply lang_Seq_inv in H as (c & r5 & -> & Hc%lang_octet_regex & H).
    apply lang_Seq_inv in H as (? & d & -> & ->%lang_Lit_inv & Hd%lang_octet_regex).
    by exists a, b, c, d.
  - intros (a & b & c & d & -> & Ha & Hb & Hc & Hd).
    apply lang_Seq; [by apply lang_octet_regex |].
    apply (lang_Seq _ _ [46]); [by apply lang_Lit_inv |].
    apply lang_Seq; [by apply lang_octet_regex |].
    apply (lang_Seq _ _ [46]); [by apply lang_Lit_inv |].
    apply lang_Seq; [by apply lang_octet_regex |].
    apply (lang_Seq _ _ [46]); [by apply lang_Lit_inv |].
    by apply lang_octet_regex.
Qed.

End Octets.

(** X20. [validateIPv4Address] accepts exactly the strings made of four
    parts separated by dots, each part one to three decimal digits with a
    value of at most 255; leading zeros are accepted. *)
Theorem validateIPv4Address_octets (ip : jsstring) :
  validateIPv4Address ip = true <->
  exists a b c d,
    ip = a ++ lit "." ++ b ++ lit "." ++ c ++ lit "." ++ d
    /\ is_octet a = true /\ is_octet b = true /\ is_octet c = true /\ is_octet d = true.
Proof. unfold validateIPv4Address. rewrite re_test_lang. apply lang_ipv4Regex. Qed.

Section Networks.

Lemma split_on_part sep a rest :
  sep ∉ a -> split_on sep (a ++ sep :: rest) = a :: split_on sep rest.
Proof.
  induction a as [| c a IH]; intros Ha; simpl.
  - by rewrite Z.eqb_refl.
  - apply not_elem_of_cons in Ha as [Hc Ha]. rewrite IH by done.
    destruct (Z.eqb_spec c sep); [congruence | done].
Qed.

Lemma split_on_last sep a : sep ∉ a -> split_on sep a = [a].
Proof.
  induction a as [| c a IH]; intros Ha; simpl; [done |].
  apply not_elem_of_cons in Ha as [Hc Ha]. rewrite IH by done.
  destruct (Z.eqb_spec c sep); [congruence | done].
Qed.

Lemma is_octet_no_dot s : is_octet s = true -> 46 ∉ s.
Proof.
  intros [_ Hs]%is_octet_digits Hin. rewrite Forall_forall in Hs.
  apply Hs in Hin. done.
Qed.

Lemma split_on_address a b c d :
  is_octet a = true -> is_octet b = true -> is_octet c = true -> is_octet d = true ->
  split_on 46 (a ++ 46 :: b ++ 46 :: c ++ 46 :: d) = [a; b; c; d].
Proof.
  intros Ha%is_octet_no_dot Hb%is_octet_no_dot Hc%is_octet_no_dot Hd%is_octet_no_dot.
  by rewrite !split_on_part, split_on_last.
Qed.

Lemma digits_nonneg s acc v : 0 <= acc -> digits acc s = Some v -> 0 <= v.
Proof.
  revert acc. induction s as [| c s IH]; intros acc Hacc; simpl.
  - by intros [= <-].
  - destruct (Z.leb_spec 48 c); simpl; [| done]. destruct (c <=? 57); [| done].
    apply IH. lia.
Qed.

Lemma is_octet_Number s : is_octet s = true -> exists v, Number s = Some v /\ 0 <= v <= 255.
Proof.
  unfold is_octet, Number. rewrite !andb_true_iff. intros [_ Hv].
  destruct (digits 0 s) as [v |] eqn:Hs; [| done].
  exists v. split; [done |]. apply digits_nonneg in Hs; lia.
Qed.

(** The decimal notation of a byte is read back as that byte. *)
Lemma pretty_octet n :
  0 <= n <= 255 ->
  is_octet (lit (pretty n)) = true /\ Number (lit (pretty n)) = Some n.
Proof.
  assert (forallb (fun n => is_octet (lit (pretty n))
                            && bool_decide (Number (lit (pretty n)) = Some n))
                  (seqZ 0 256) = true) as Hall by (vm_compute; reflexivity).
  rewrite forallb_forall in Hall. intros Hn.
  assert (n ∈ seqZ 0 256) as Hin%list_elem_of_In by (apply elem_of_seqZ; lia).
  apply Hall, andb_true_iff in Hin as [? Hnum]. split; [done |].
  by apply bool_decide_eq_true in Hnum.
Qed.

(** The parts of the 25 masks of [validMasks] are bytes. *)
Lemma validMasks_parts mask :
  isValidSubnetMask mask = true ->
  exists m1 m2 m3 m4,
    Number <$> split_on 46 mask = [Some m1; Some m2; Some m3; Some m4]
    /\ Forall (fun m => 0 <= m <= 255) [m1; m2; m3; m4].
Proof.
  assert (forallb (fun mask =>
            match Number <$> split_on 46 mask with
            | [Some m1; Some m2; Some m3; Some m4] =>
                forallb (fun m => (0 <=? m) && (m <=? 255)) [m1; m2; m3; m4]
            | _ => false
            end) validMasks = true) as Hall by (vm_compute; reflexivity).
  rewrite forallb_forall in Hall.
  unfold isValidSubnetMask. rewrite bool_decide_eq_true. intros Hin%list_elem_of_In.
  apply Hall in Hin.
  destruct (Number <$> split_on 46 mask)
    as [| [m1 |] [| [m2 |] [| [m3 |] [| [m4 |] [| ? ?]]]]]; try done.
  exists m1, m2, m3, m4. split; [done |].
  rewrite forallb_forall in Hin. apply Forall_forall. intros m Hm%list_elem_of_In.
  apply Hin in Hm. lia.
Qed.

Lemma band_bytes (v m : Z) :
  0 <= v <= 255 -> 0 <= m <= 255 -> band v m = Z.land v m /\ 0 <= Z.land v m <= 255.
Proof.
  intros Hv Hm. split.
  - unfold band, ToInt32, ToNumber, wrap32.
    rewrite !(Z.mod_small (_ + 2147483648)) by lia. f_equal; lia.
  - split; [apply Z.land_nonneg; lia |].
    assert (Z.land v m = Z.land v m mod 2 ^ 8) as Hland.
    { rewrite <- Z.land_ones, <- Z.land_assoc, (Z.land_comm m), Z.land_assoc by lia.
      by rewrite (Z.land_ones v), (Z.mod_small v) by lia. }
    pose proof (Z.mod_pos_bound (Z.land v m) (2 ^ 8)). lia.
Qed.

(** The network address of four parts under a valid mask. *)
Lemma calculateNetworkAddress_parts (a b c d : jsstring) (va vb vc vd : Z)
    (mask : jsstring) (m1 m2 m3 m4 : Z) :
  is_octet a = true -> is_octet b = true -> is_octet c = true -> is_octet d = true ->
  Number a = Some va -> Number b = Some vb -> Number c = Some vc -> Number d = Some vd ->
  isValidSubnetMask mask = true ->
  Number <$> split_on 46 mask = [Some m1; Some m2; Some m3; Some m4] ->
  calculateNetworkAddress (a ++ 46 :: b ++ 46 :: c ++ 46 :: d) mask
  = Some (lit (pretty (band va m1)) ++ 46 :: lit (pretty (band vb m2))
          ++ 46 :: lit (pretty (band vc m3)) ++ 46 :: lit (pretty (band vd m4))).
Proof.
  intros Ha Hb Hc Hd Hva Hvb Hvc Hvd Hmask Hparts. unfold calculateNetworkAddress.
  assert (validateIPv4Address (a ++ 46 :: b ++ 46 :: c ++ 46 :: d) = true) as ->.
  { apply re_test_lang, lang_ipv4Regex. by exists a, b, c, d. }
  rewrite Hmask. cbn [negb orb]. cbv zeta.
  rewrite split_on_address, Hparts by done.
  cbn [fmap list_fmap imap lookup list_lookup default option_map from_option id].
  rewrite Hva, Hvb, Hvc, Hvd. reflexivity.
Qed.

End Networks.

(** X21. When [calculateNetworkAddress] answers a network address, that
    answer is itself an address [validateIPv4Address] accepts, applying the
    same mask to it gives it back, and [areIPsInSameNetwork] finds the
    address and its network address in the same network. *)
Theorem calculateNetworkAddress_idempotent (ip mask network : jsstring) :
  calculateNetworkAddress ip mask = Some network ->
  validateIPv4Address network = true
  /\ calculateNetworkAddress network mask = Some network
  /\ areIPsInSameNetwork ip network mask = true.
Proof.
  intros Hnet.
  assert (validateIPv4Address ip = true /\ isValidSubnetMask mask = true) as [Hip Hmask].
  { unfold calculateNetworkAddress in Hnet.
    destruct (validateIPv4Address ip), (isValidSubnetMask mask); done. }
  apply re_test_lang, lang_ipv4Regex in Hip as (a & b & c & d & -> & Ha & Hb & Hc & Hd).
  destruct (is_octet_Number a Ha) as (va & Hva & ?).
  destruct (is_octet_Number b Hb) as (vb & Hvb & ?).
  destruct (is_octet_Number c Hc) as (vc & Hvc & ?).
  destruct (is_octet_Number d Hd) as (vd & Hvd & ?).
  destruct (validMasks_parts mask Hmask) as (m1 & m2 & m3 & m4 & Hparts & Hm).
  repeat (apply Forall_cons in Hm as [? Hm]).
  rewrite (calculateNetworkAddress_parts a b c d va vb vc vd mask m1 m2 m3 m4) in Hnet
    by done.
  injection Hnet as <-.
  destruct (band_bytes va m1) as [Ea ?]; [done.. |].
  destruct (band_bytes vb m2) as [Eb ?]; [done.. |].
  destruct (band_bytes vc m3) as [Ec ?]; [done.. |].
  destruct (band_bytes vd m4) as [Ed ?]; [done.. |].
  rewrite Ea, Eb, Ec, Ed.
  destruct (pretty_octet (Z.land va m1)) as [Hpa Hna]; [done |].
  destruct (pretty_octet (Z.land vb m2)) as [Hpb Hnb]; [done |].
  destruct (pretty_octet (Z.land vc m3)) as [Hpc Hnc]; [done |].
  destruct (pretty_octet (Z.land vd m4)) as [Hpd Hnd]; [done |].
  assert (calculateNetworkAddress
            (lit (pretty (Z.land va m1)) ++ 46 :: lit (pretty (Z.land vb m2))
             ++ 46 :: lit (pretty (Z.land vc m3)) ++ 46 :: lit (pretty (Z.land vd m4))) mask
          = Some (lit (pretty (Z.land va m1)) ++ 46 :: lit (pretty (Z.land vb m2))
                  ++ 46 :: lit (pretty (Z.land vc m3)) ++ 46 :: lit (pretty (Z.land vd m4))))
    as Hagain.
  { rewrite (calculateNetworkAddress_parts _ _ _ _ _ _ _ _ mask m1 m2 m3 m4
               Hpa Hpb Hpc Hpd Hna Hnb Hnc Hnd Hmask Hparts).
    destruct (band_bytes (Z.land va m1) m1) as [-> _]; [done.. |].
    destruct (band_bytes (Z.land vb m2) m2) as [-> _]; [done.. |].
    destruct (band_bytes (Z.land vc m3) m3) as [-> _]; [done.. |].
    destruct (band_bytes (Z.land vd m4) m4) as [-> _]; [done.. |].
    by rewrite <- !Z.land_assoc, !Z.land_diag. }
  split; [| split].
  - apply re_test_lang, lang_ipv4Regex. by eexists _, _, _, _.
  - done.
  - unfold areIPsInSameNetwork. apply bool_decide_eq_true. rewrite Hagain.
    rewrite (calculateNetworkAddress_parts a b c d va vb vc vd mask m1 m2 m3 m4) by done.
    by rewrite Ea, Eb, Ec, Ed.
Qed.

Lemma calculateNetworkAddress_idempotent_witness :
  validateIPv4Address (lit "192.168.1.0") = true
  /\ calculateNetworkAddress (lit "192.168.1.0") (lit "255.255.255.0")
     = Some (lit "192.168.1.0")
  /\ areIPsInSameNetwork (lit "192.168.1.77") (lit "192.168.1.0") (lit "255.255.255.0") = true.
Proof.
  apply (calculateNetworkAddress_idempotent (lit "192.168.1.77")). vm_compute. reflexivity.
Defined.
